(** * wg-gesucht-stats: the proxy-rotating fetch layer ([wggesuchtstats/util.py])

    A shallow embedding of the module's process-wide proxy pool, its health
    tracker, the proxy-file loader and the retry loop of [requests_get],
    of the address helpers and the row loop of the page parsers
    ([parsers.py]) and of the two entry points of the scraper ([scraper.py]),
    followed by the properties established about them.

    Conventions of the embedding:
    - a Python [str] is a [string]; its characters stand for the code points
      below 256;
    - a Python [int] is a [Z];
    - [proxy_failure_counts], a [defaultdict(int)], is a [gmap string Z]
      whose subscript read inserts the default for a missing key;
    - the outside world (file system, [random], the HTTP session) is an
      oracle record [Env], queried at the current [tick] of the world. *)

From Stdlib Require Import ZArith Ascii String List Bool Lia Permutation.
From Stdlib Require Import DecimalString.
From stdpp Require Import base option list gmap strings fin_maps.

Open Scope string_scope.
Open Scope list_scope.
Open Scope Z_scope.

(** ** Text helpers: [str.strip], [str.splitlines], [":" in ln] *)

Module Text.

(** [str.isspace] on one character (code points below 256): the ASCII
    controls 9-13 and 28-31, the blank, NEL and the no-break space. *)
Definition isspace (c : ascii) : bool :=
  let n := nat_of_ascii c in
  (Nat.leb 9 n && Nat.leb n 13) || (Nat.leb 28 n && Nat.leb n 32)
  || Nat.eqb n 133 || Nat.eqb n 160.

(** The line boundaries of [str.splitlines] below 256: LF, VT, FF, CR,
    FS, GS, RS and NEL. *)
Definition is_linebreak (c : ascii) : bool :=
  let n := nat_of_ascii c in
  (Nat.leb 10 n && Nat.leb n 13) || (Nat.leb 28 n && Nat.leb n 30)
  || Nat.eqb n 133.

Definition CR : ascii := ascii_of_nat 13.
Definition LF : ascii := ascii_of_nat 10.

Fixpoint lstrip (s : string) : string :=
  match s with
  | EmptyString => EmptyString
  | String c r => if isspace c then lstrip r else s
  end.

Fixpoint rstrip (s : string) : string :=
  match s with
  | EmptyString => EmptyString
  | String c r =>
      match rstrip r with
      | EmptyString => if isspace c then EmptyString else String c EmptyString
      | r' => String c r'
      end
  end.

(** [s.strip()] *)
Definition strip (s : string) : string := lstrip (rstrip s).

(** [c in s] for a one-character needle. *)
Fixpoint contains (c : ascii) (s : string) : bool :=
  match s with
  | EmptyString => false
  | String d r => Ascii.eqb c d || contains c r
  end.

(** Truthiness of a [str]: non-empty. *)
Definition truthy (s : string) : bool :=
  match s with EmptyString => false | String _ _ => true end.

(** [s.splitlines()]: [cur] is the line being read (reversed), [after_cr]
    tells that the previous character was a CR, so that a LF right after
    it belongs to the same boundary. *)
Fixpoint splitlines_from (cur : list ascii) (after_cr : bool) (s : string)
  : list string :=
  match s with
  | EmptyString =>
      match cur with
      | [] => []
      | _ => [string_of_list_ascii (rev cur)]
      end
  | String c r =>
      if after_cr && Ascii.eqb c LF then splitlines_from [] false r
      else if is_linebreak c
           then string_of_list_ascii (rev cur)
                  :: splitlines_from [] (Ascii.eqb c CR) r
           else splitlines_from (c :: cur) false r
  end.

Definition splitlines (s : string) : list string :=
  splitlines_from [] false s.

End Text.

(** ** Tunables *)

Definition PROXY_FILE : string := "out/working_proxies_all.txt".
Definition PROXY_REMOVE_AFTER : Z := 2.
Definition SOFT_EXCLUDE_AFTER : Z := 1.
Definition MAX_ATTEMPTS : Z := 200.
Definition CONNECT_TIMEOUT : Z := 3.
Definition READ_TIMEOUT : Z := 5.

(** ** The pool loader *)

(** [_get_proxies]: [content] is what [open(path).read()] gives, [None] when
    opening, reading or decoding raises (the [except Exception] branch). *)
Definition _get_proxies (content : option string) : list string :=
  match content with
  | Some text =>
      map Text.strip
        (List.filter
           (fun ln => Text.truthy (Text.strip ln) && Text.contains ":" ln)
           (Text.splitlines text))
  | None => []
  end.

(** ** Process-wide state and the outside world *)

(** What the caller sees of a [requests.Response]. *)
Record Response := mkResponse { status_code : Z; text : string }.

(** One [_session.get] call: a response, or one of the exceptions of the
    [except] clause (all of them are [RequestException]s). *)
Inductive Outcome :=
| Responded (r : Response)
| RequestFailed.

(** The oracles of the outside world, each asked at the world's [tick]:
    the text of a file ([None]: reading raises), the order [random.shuffle]
    leaves a list in, and what the session answers for a URL through a proxy
    with the given connect and read timeouts (the randomly chosen user agent
    is part of the oracle's answer at that tick). *)
Record Env := mkEnv {
  read_file : nat -> string -> option string;
  shuffle : nat -> list string -> list string;
  session_get : nat -> string -> string -> Z -> Z -> Outcome;
}.

(** [random.shuffle] permutes its argument. *)
Definition shuffle_ok (env : Env) : Prop :=
  forall k l, Permutation l (shuffle env k l).

(** Observable actions, logged newest first; a recorded failure carries the
    count it has set. *)
Inductive Event :=
| EvRead (path : string)
| EvShuffle (l : list string)
| EvCallback (attempt : Z) (proxy : string)
| EvGet (url proxy : string) (o : Outcome)
| EvFailure (p : string) (count : Z)
| EvSuccess (p : string)
| EvSleep.

Record World := mkWorld {
  proxy_list : list string;
  proxy_failure_counts : gmap string Z;
  tick : nat;
  trace : list Event;
}.

(** The state at process start. *)
Definition initial_world : World := mkWorld [] ∅ 0 [].

Definition log (e : Event) (w : World) : World :=
  mkWorld (proxy_list w) (proxy_failure_counts w) (tick w) (e :: trace w).

Definition advance (w : World) : World :=
  mkWorld (proxy_list w) (proxy_failure_counts w) (S (tick w)) (trace w).

Definition set_proxy_list (l : list string) (w : World) : World :=
  mkWorld l (proxy_failure_counts w) (tick w) (trace w).

Definition set_counts (m : gmap string Z) (w : World) : World :=
  mkWorld (proxy_list w) m (tick w) (trace w).

(** ** The failure-count dictionary *)

(** [d[k]] on a [defaultdict(int)]: a missing key is inserted with 0. *)
Definition dd_get (k : string) (m : gmap string Z) : Z * gmap string Z :=
  match m !! k with
  | Some v => (v, m)
  | None => (0, <[k:=0]> m)
  end.

(** The count a read of [proxy_failure_counts[p]] would give. *)
Definition count_of (m : gmap string Z) (p : string) : Z :=
  default 0 (m !! p).

(** [p in l] *)
Definition mem (p : string) (l : list string) : bool :=
  existsb (String.eqb p) l.

(** [l.remove(p)] where [p] occurs: the first occurrence goes. *)
Fixpoint remove_first (p : string) (l : list string) : list string :=
  match l with
  | [] => []
  | x :: r => if String.eqb x p then r else x :: remove_first p r
  end.

(** ** Health tracker *)

Definition _remove_failed_proxy_locked (p : string) (w : World) : World :=
  let w1 := if mem p (proxy_list w)
            then set_proxy_list (remove_first p (proxy_list w)) w
            else w in
  set_counts (delete p (proxy_failure_counts w1)) w1.

Definition _handle_proxy_failure (p : option string) (w : World) : World :=
  match p with
  | None => w
  | Some p =>
      if negb (Text.truthy p) then w
      else
        let '(c0, m) := dd_get p (proxy_failure_counts w) in
        let c := c0 + 1 in
        let w := set_counts (<[p:=c]> m) (log (EvFailure p c) w) in
        if c >=? PROXY_REMOVE_AFTER then _remove_failed_proxy_locked p w else w
  end.

Definition _handle_proxy_success (p : option string) (w : World) : World :=
  match p with
  | None => w
  | Some p =>
      if negb (Text.truthy p) then w
      else set_counts (<[p:=0]> (proxy_failure_counts w)) (log (EvSuccess p) w)
  end.

(** Truthiness of a list: non-empty. *)
Definition nonempty {A} (l : list A) : bool :=
  match l with [] => false | _ :: _ => true end.

Definition _ensure_global_proxies (env : Env) (w : World) : World :=
  if nonempty (proxy_list w) then w
  else
    let new_list := _get_proxies (read_file env (tick w) PROXY_FILE) in
    let w := advance (log (EvRead PROXY_FILE) w) in
    if negb (nonempty (proxy_list w)) && nonempty new_list
    then set_proxy_list new_list w
    else w.

(** [[p for p in l if proxy_failure_counts[p] < bound]], with the reads of
    the dictionary in order. *)
Fixpoint select_below (bound : Z) (l : list string) (m : gmap string Z)
  : list string * gmap string Z :=
  match l with
  | [] => ([], m)
  | p :: r =>
      let '(c, m1) := dd_get p m in
      let '(rest, m2) := select_below bound r m1 in
      (if c <? bound then p :: rest else rest, m2)
  end.

Definition _snapshot_local (w : World) : list string * World :=
  let '(local, m) :=
    select_below SOFT_EXCLUDE_AFTER (proxy_list w) (proxy_failure_counts w) in
  let w := set_counts m w in
  (if nonempty local then local else proxy_list w, w).

Definition RETRYABLE : list Z :=
  [301; 302; 401; 403; 407; 429; 500; 502; 503; 504].

Definition _is_retryable_status (code : Z) : bool :=
  existsb (Z.eqb code) RETRYABLE.

Record ProxyStats := mkStats {
  total_proxies : Z;
  healthy_proxies : Z;
  failure_counts : gmap string Z;
}.

(** The three entries of the returned dict are evaluated in order, so the
    copy of the dictionary is taken after the reads of the second entry. *)
Definition get_proxy_stats (w : World) : ProxyStats * World :=
  let total := Z.of_nat (length (proxy_list w)) in
  let '(healthy, m) :=
    select_below PROXY_REMOVE_AFTER (proxy_list w) (proxy_failure_counts w) in
  (mkStats total (Z.of_nat (length healthy)) m, set_counts m w).

(** ** The fetch operation *)

(** Both [RequestException]s of [requests_get], told apart by their message,
    and the [IndexError] a subscript out of range would raise. *)
Inductive Exn :=
| NoProxiesAvailable
| FailedAfter (max_attempts : Z) (stats : ProxyStats)
| IndexError.

(** How a call ends; [OutOfFuel] stands for a loop that has not finished
    within the iterations it was given. *)
Inductive Result :=
| Returned (r : Response)
| Raised (e : Exn)
| OutOfFuel.

(** The block under [if i >= len(local)]. *)
Definition resnapshot (env : Env) (w : World)
  : option (list string * nat) * World :=
  let w := _ensure_global_proxies env w in
  let '(local, w) := _snapshot_local w in
  if negb (nonempty local) then (None, w)
  else (Some (shuffle env (tick w) local, 0%nat),
        advance (log (EvShuffle local) w)).

(** [time.sleep(random.random() * MAX_JITTER)] *)
Definition sleep_jitter (w : World) : World := advance (log EvSleep w).

(** What one iteration of the loop leaves: the loop variables for the next
    test of the condition, or the end of the call. *)
Inductive Step :=
| Continue (attempt : Z) (i : nat) (local : list string) (w : World)
| Stop (r : Result) (w : World).

(** The body of the [while] loop; [on_attempt] tells whether a callback was
    passed (it is then called with the attempt and the proxy). *)
Definition retry_step (env : Env) (url : string)
    (connect_timeout read_timeout : Z) (on_attempt : bool)
    (attempt : Z) (i : nat) (local : list string) (w : World) : Step :=
  let '(cursor, w) :=
    if (length local <=? i)%nat then resnapshot env w
    else (Some (local, i), w) in
  match cursor with
  | None => Stop (Raised NoProxiesAvailable) w
  | Some (local, i) =>
      match local !! i with
      | None => Stop (Raised IndexError) w
      | Some proxy =>
          let i := S i in
          let attempt := attempt + 1 in
          let w := if on_attempt then log (EvCallback attempt proxy) w
                   else w in
          let o := session_get env (tick w) url proxy
                     connect_timeout read_timeout in
          let w := advance (log (EvGet url proxy o) w) in
          match o with
          | Responded r =>
              if _is_retryable_status (status_code r) then
                Continue attempt i local
                  (sleep_jitter (_handle_proxy_failure (Some proxy) w))
              else Stop (Returned r) (_handle_proxy_success (Some proxy) w)
          | RequestFailed =>
              Continue attempt i local
                (sleep_jitter (_handle_proxy_failure (Some proxy) w))
          end
      end
  end.

(** The [while attempt < max_attempts] loop and the [raise] after it. *)
Fixpoint retry_loop (fuel : nat) (env : Env) (url : string)
    (connect_timeout read_timeout max_attempts : Z) (on_attempt : bool)
    (attempt : Z) (i : nat) (local : list string) (w : World)
  : Result * World :=
  if attempt <? max_attempts then
    match fuel with
    | O => (OutOfFuel, w)
    | S fuel' =>
        match retry_step env url connect_timeout read_timeout on_attempt
                attempt i local w with
        | Continue attempt i local w =>
            retry_loop fuel' env url connect_timeout read_timeout
              max_attempts on_attempt attempt i local w
        | Stop r w => (r, w)
        end
    end
  else
    let '(stats, w) := get_proxy_stats w in
    (Raised (FailedAfter max_attempts stats), w).

Definition requests_get (env : Env) (url : string)
    (connect_timeout read_timeout max_attempts : Z) (on_attempt : bool)
    (w : World) : Result * World :=
  let w := _ensure_global_proxies env w in
  let '(local, w) := _snapshot_local w in
  let shuffled := shuffle env (tick w) local in
  let w := advance (log (EvShuffle local) w) in
  retry_loop (Z.to_nat max_attempts) env url connect_timeout read_timeout
    max_attempts on_attempt 0 0%nat shuffled w.

(** ** The log *)

(** The outcomes of the HTTP attempts of a log, newest first. *)
Fixpoint attempts_of (tr : list Event) : list Outcome :=
  match tr with
  | [] => []
  | EvGet _ _ o :: r => o :: attempts_of r
  | _ :: r => attempts_of r
  end.

(** The recorded failures of a log, newest first. *)
Fixpoint failures_of (tr : list Event) : list (string * Z) :=
  match tr with
  | [] => []
  | EvFailure p c :: r => (p, c) :: failures_of r
  | _ :: r => failures_of r
  end.

(** The recorded successes of a log, newest first. *)
Fixpoint successes_of (tr : list Event) : list string :=
  match tr with
  | [] => []
  | EvSuccess p :: r => p :: successes_of r
  | _ :: r => successes_of r
  end.

(** An attempt the loop retries: a retryable status or a request error. *)
Definition failed_attempt (o : Outcome) : bool :=
  match o with
  | Responded r => _is_retryable_status (status_code r)
  | RequestFailed => true
  end.

(** ** Sequences of operations on the pool *)

Inductive PoolOp :=
| RecordSuccess (p : option string)
| RecordFailure (p : option string)
| LazySeed
| Snapshot
| Stats
| Fetch (url : string) (connect_timeout read_timeout max_attempts : Z)
        (on_attempt : bool).

Definition run_op (env : Env) (w : World) (op : PoolOp) : World :=
  match op with
  | RecordSuccess p => _handle_proxy_success p w
  | RecordFailure p => _handle_proxy_failure p w
  | LazySeed => _ensure_global_proxies env w
  | Snapshot => snd (_snapshot_local w)
  | Stats => snd (get_proxy_stats w)
  | Fetch url ct rt n cb => snd (requests_get env url ct rt n cb w)
  end.

Definition run_ops (env : Env) (ops : list PoolOp) (w : World) : World :=
  fold_left (run_op env) ops w.

(** The invariant of the pool: an address whose recorded count has reached
    the removal threshold is not in the address list. *)
Definition pool_invariant (w : World) : Prop :=
  forall p c, proxy_failure_counts w !! p = Some c ->
              PROXY_REMOVE_AFTER <= c -> ~ In p (proxy_list w).

(** ** The loader as the specification words it *)

(** A line qualifies when, trimmed, it is non-empty and has a colon. *)
Definition qualifies (ln : string) : bool :=
  let t := Text.strip ln in Text.truthy t && Text.contains ":" t.

Definition load_spec (lines : list string) : list string :=
  map Text.strip (List.filter qualifies lines).

(** The three lines of the loader scenario as the text of a file. *)
Definition scenario_file : string :=
  ("not-a-proxy"
   ++ String Text.LF (String Text.LF ("1.2.3.4:8080" ++ String Text.LF "")))%string.

(** ** Derived views of the pool *)

(** The addresses of the list whose count is below the soft threshold. *)
Definition usable (w : World) : list string :=
  List.filter
    (fun p => count_of (proxy_failure_counts w) p <? SOFT_EXCLUDE_AFTER)
    (proxy_list w).

(** The addresses of the list whose count is below the removal threshold. *)
Definition healthy (w : World) : list string :=
  List.filter
    (fun p => count_of (proxy_failure_counts w) p <? PROXY_REMOVE_AFTER)
    (proxy_list w).

(** Every recorded count is below the removal threshold. *)
Definition counts_bounded (w : World) : Prop :=
  forall p c, proxy_failure_counts w !! p = Some c -> c < PROXY_REMOVE_AFTER.

(** A pool that lists one address twice, and one that has seen nothing. *)
Definition twice_listed : World :=
  mkWorld ["1.2.3.4:8080"; "1.2.3.4:8080"] ∅ 0 [].

Definition fresh_single : World := mkWorld ["1.2.3.4:8080"] ∅ 0 [].

(** Three pools of the two-proxy scenario: one failure recorded against
    the first address only, none at all, and one against each. *)
Definition one_soft : World :=
  mkWorld ["p1:8080"; "p2:8080"] {[ "p1:8080" := 1 ]} 0 [].

Definition two_fresh : World := mkWorld ["p1:8080"; "p2:8080"] ∅ 0 [].

Definition both_soft : World :=
  mkWorld ["p1:8080"; "p2:8080"] (<["p1:8080" := 1]> {[ "p2:8080" := 1 ]}) 0 [].

(** ** The loop body in two halves *)

(** The proxy the iteration will use: the block that takes a new snapshot
    when the local one is used up. *)
Definition next_cursor (env : Env) (i : nat) (local : list string) (w : World)
  : option (list string * nat) * World :=
  if (length local <=? i)%nat then resnapshot env w else (Some (local, i), w).

(** The attempt through the chosen proxy, from [i += 1] on. *)
Definition try_proxy (env : Env) (url : string)
    (connect_timeout read_timeout : Z) (on_attempt : bool)
    (attempt : Z) (i : nat) (local : list string) (proxy : string) (w : World)
  : Step :=
  let w := if on_attempt then log (EvCallback (attempt + 1) proxy) w else w in
  let o := session_get env (tick w) url proxy connect_timeout read_timeout in
  let w := advance (log (EvGet url proxy o) w) in
  match o with
  | Responded r =>
      if _is_retryable_status (status_code r) then
        Continue (attempt + 1) (S i) local
          (sleep_jitter (_handle_proxy_failure (Some proxy) w))
      else Stop (Returned r) (_handle_proxy_success (Some proxy) w)
  | RequestFailed =>
      Continue (attempt + 1) (S i) local
        (sleep_jitter (_handle_proxy_failure (Some proxy) w))
  end.

(** Nothing was attempted or recorded between two worlds. *)
Definition quiet (w w' : World) : Prop :=
  attempts_of (trace w') = attempts_of (trace w)
  /\ failures_of (trace w') = failures_of (trace w)
  /\ successes_of (trace w') = successes_of (trace w)
  /\ forall p, count_of (proxy_failure_counts w') p
               = count_of (proxy_failure_counts w) p.

(** The ways a call may end, told by the outcomes [during] of the attempts
    it made (newest first) and the [budget] of iterations it had: with the
    response of a last attempt that is not retried, all earlier ones having
    failed; with the error of a used-up budget, carrying the stats of the
    pool as it is left; or with the error of an empty pool, right after a
    read of the proxy file that gave no address, before the budget is used
    up. *)
Definition ends_as (env : Env) (max_attempts : Z) (budget : nat)
    (during : list Outcome) (res : Result) (w' : World) : Prop :=
  match res with
  | Returned r =>
      exists rest, during = Responded r :: rest
                   /\ forallb failed_attempt rest = true
                   /\ _is_retryable_status (status_code r) = false
                   /\ (length during <= budget)%nat
  | Raised (FailedAfter n stats) =>
      n = max_attempts
      /\ forallb failed_attempt during = true
      /\ length during = budget
      /\ get_proxy_stats w' = (stats, w')
  | Raised NoProxiesAvailable =>
      forallb failed_attempt during = true
      /\ (length during < budget)%nat
      /\ proxy_list w' = []
      /\ _get_proxies (read_file env (pred (tick w')) PROXY_FILE) = []
      /\ exists tr, trace w' = EvRead PROXY_FILE :: tr
  | Raised IndexError => False
  | OutOfFuel => False
  end.

(** ** Two small worlds to run the fetch in *)

(** No proxy file, lists left in their order, every request failing. *)
Definition failing_env : Env :=
  mkEnv (fun _ _ => None) (fun _ l => l) (fun _ _ _ _ _ => RequestFailed).

(** The same, with a session that answers 429 at first and 200 later. *)
Definition flaky_env : Env :=
  mkEnv (fun _ _ => None) (fun _ l => l)
        (fun k _ _ _ _ =>
           if (k <? 2)%nat then Responded (mkResponse 429 "slow down")
           else Responded (mkResponse 200 "ok")).

(** Two worlds answer alike. *)
Definition env_agree (env env' : Env) : Prop :=
  (forall k path, read_file env k path = read_file env' k path)
  /\ (forall k l, shuffle env k l = shuffle env' k l)
  /\ (forall k url proxy ct rt,
        session_get env k url proxy ct rt = session_get env' k url proxy ct rt).

(** The world of the two-proxy scenario once its two shuffles are known:
    the first is asked at tick 0 and the second at tick 5, both on the whole
    pool; every request fails. *)
Definition scripted (env : Env) (first second : list string) : Env :=
  mkEnv (read_file env)
        (fun k l =>
           if List.list_eq_dec string_dec l ["p1:8080"; "p2:8080"] then
             match k with
             | 0%nat => first
             | 5%nat => second
             | _ => shuffle env k l
             end
           else shuffle env k l)
        (fun _ _ _ _ _ => RequestFailed).

(** ** Further views used by the properties of the pool and the fetch *)

(** What the loader lets through: a non-empty address with a colon and no
    whitespace around it. *)
Definition wellformed (p : string) : Prop :=
  p <> "" /\ Text.strip p = p /\ Text.contains ":" p = true.

(** The requests of a log, newest first: the URL and the proxy of each. *)
Fixpoint gets_of (tr : list Event) : list (string * string) :=
  match tr with
  | [] => []
  | EvGet url proxy _ :: r => (url, proxy) :: gets_of r
  | _ :: r => gets_of r
  end.

(** An address the pool holds, or one the proxy file gives at some time. *)
Definition known (env : Env) (w : World) (p : string) : Prop :=
  In p (proxy_list w)
  \/ exists k, In p (_get_proxies (read_file env k PROXY_FILE)).

(** A world whose proxy file is the file of the loader scenario. *)
Definition seeded_env : Env :=
  mkEnv (fun _ _ => Some scenario_file) (fun _ l => l)
        (fun _ _ _ _ _ => RequestFailed).

(** The ledger of the steps that lead from [w] to [w'] and end as [res]:
    the requests made, the failures and the successes recorded (all newest
    first). Every request is for [url] through an address that satisfies
    [K]; and if such addresses are never empty, the proxies of the requests
    are those of the recorded failures, preceded by the one of the recorded
    success when a response is returned, whose count is then 0. *)
Definition ledger (K : string -> Prop) (url : string) (w w' : World)
    (res : Result) : Prop :=
  exists dg df ds,
    gets_of (trace w') = dg ++ gets_of (trace w)
    /\ failures_of (trace w') = df ++ failures_of (trace w)
    /\ successes_of (trace w') = ds ++ successes_of (trace w)
    /\ (forall u p, In (u, p) dg -> u = url /\ K p)
    /\ ((forall p, K p -> p <> "") ->
        map snd dg = ds ++ map fst df
        /\ match res with
           | Returned _ =>
               exists p, ds = [p] /\ proxy_failure_counts w' !! p = Some 0
           | _ => ds = []
           end).

(** ** The chances a pool has left *)

(** The failures the addresses of [l] can still take before they are
    removed, under the counts of [m]. *)
Fixpoint credit (m : gmap string Z) (l : list string) : Z :=
  match l with
  | [] => 0
  | p :: r => (PROXY_REMOVE_AFTER - count_of m p) + credit m r
  end.

(** The failures the pool can still take before it is empty. *)
Definition chances (w : World) : Z :=
  credit (proxy_failure_counts w) (proxy_list w).

(** A pool that lists no address twice, none empty, and none at the removal
    threshold. *)
Definition sound (w : World) : Prop :=
  List.NoDup (proxy_list w)
  /\ forall p, In p (proxy_list w) ->
               p <> "" /\ count_of (proxy_failure_counts w) p < PROXY_REMOVE_AFTER.

(** The number of requests made between two worlds. *)
Definition made (w w' : World) : Z :=
  Z.of_nat (length (attempts_of (trace w')))
  - Z.of_nat (length (attempts_of (trace w))).

(** ** The address helpers of the page parsers ([wggesuchtstats/parsers.py])

    The regular expressions of the two helpers are constants; each is
    embedded as the matcher it denotes. *)

Module Re.

(** [\d] on one character (code points below 256): the ASCII digits. *)
Definition is_digit (c : ascii) : bool :=
  let n := nat_of_ascii c in Nat.leb 48 n && Nat.leb n 57.

(** [re.sub(r"\s+", " ", s)]: [in_run] tells that the previous character was
    whitespace, so that the run it belongs to has its blank already. *)
Fixpoint collapse_from (in_run : bool) (s : string) : string :=
  match s with
  | EmptyString => EmptyString
  | String c r =>
      if Text.isspace c
      then if in_run then collapse_from true r
           else String " " (collapse_from true r)
      else String c (collapse_from false r)
  end.

Definition collapse (s : string) : string := collapse_from false s.

(** The pattern [1[0-4]\d{3}] at the start of [s]: the five characters it
    matches. *)
Definition zip_at (s : string) : option string :=
  match s with
  | String a (String b (String c (String d (String e _)))) =>
      if Ascii.eqb a "1"
         && (Nat.leb 48 (nat_of_ascii b) && Nat.leb (nat_of_ascii b) 52)
         && is_digit c && is_digit d && is_digit e
      then Some (String a (String b (String c (String d (String e EmptyString)))))
      else None
  | _ => None
  end.

(** [re.search(r"(1[0-4]\d{3})", s)]: group 1 of the leftmost match. *)
Fixpoint search_zip (s : string) : option string :=
  match s with
  | EmptyString => None
  | String _ r =>
      match zip_at s with
      | Some z => Some z
      | None => search_zip r
      end
  end.

(** The lookahead [(?=1[0-4]\d{3}\s|$)] at the start of [t]: a postcode and
    a whitespace character, or the end of the string, which [$] also sees
    before a final line feed. *)
Definition lookahead (t : string) : bool :=
  match zip_at t with
  | Some _ =>
      match t with
      | String _ (String _ (String _ (String _ (String _ (String c _))))) =>
          Text.isspace c
      | _ => false
      end
  | None => false
  end
  || match t with
     | EmptyString => true
     | String c EmptyString => Ascii.eqb c Text.LF
     | _ => false
     end.

(** Group 1 of [re.match(r"^(.+?)(?=1[0-4]\d{3}\s|$)", s)]: the shortest
    non-empty prefix without a line feed that the lookahead follows. *)
Fixpoint street_group (s : string) : option string :=
  match s with
  | EmptyString => None
  | String c r =>
      if Ascii.eqb c Text.LF then None
      else if lookahead r then Some (String c EmptyString)
           else option_map (String c) (street_group r)
  end.

(** [s.rstrip(chars)], [drop] telling the characters of [chars]. *)
Fixpoint rstrip_chars (drop : ascii -> bool) (s : string) : string :=
  match s with
  | EmptyString => EmptyString
  | String c r =>
      match rstrip_chars drop r with
      | EmptyString => if drop c then EmptyString else String c EmptyString
      | r' => String c r'
      end
  end.

End Re.

(** The characters of [".,"]. *)
Definition dot_or_comma (c : ascii) : bool := Ascii.eqb c "." || Ascii.eqb c ",".

Definition _extract_zip_from_address (address : option string) : option string :=
  match address with
  | None => None
  | Some a =>
      if negb (Text.truthy a) then None
      else Re.search_zip (Re.collapse (Text.strip a))
  end.

Definition _extract_street_from_address (address : option string)
  : option string :=
  match address with
  | None => None
  | Some a =>
      if negb (Text.truthy a) then None
      else
        match Re.street_group (Re.collapse (Text.strip a)) with
        | Some g =>
            let street := Re.rstrip_chars dot_or_comma (Text.strip g) in
            if Text.truthy street then Some street else None
        | None => None
        end
  end.


(** The number a string of digits writes. *)
Definition decimal (s : string) : Z :=
  fold_left (fun acc c => 10 * acc + (Z.of_nat (nat_of_ascii c) - 48))
            (list_ascii_of_string s) 0.

(** No whitespace in the string. *)
Fixpoint solid (s : string) : bool :=
  match s with
  | EmptyString => true
  | String c r => negb (Text.isspace c) && solid r
  end.

(** No line feed in the string. *)
Fixpoint one_line (s : string) : bool :=
  match s with
  | EmptyString => true
  | String c r => negb (Ascii.eqb c Text.LF) && one_line r
  end.

(** ** The records of the scraper ([wggesuchtstats/models.py]) *)

Module Models.

(** A [datetime] or [date] read with ["%d.%m.%Y"]: year, month, day. *)
Definition Date : Type := Z * Z * Z.

Record FlatAd := mkFlatAd {
  url : string;
  published : Date;
  rent : Z;
  size : Z;
  district : string;
  female_inhabitants : Z;
  male_inhabitants : Z;
  diverse_inhabitants : Z;
  total_inhabitants : Z;
}.

(** [FlatAd.__eq__] against another [FlatAd]: the URLs decide. *)
Definition FlatAd_eq (a b : FlatAd) : bool := String.eqb (url a) (url b).


(** A [set] of [FlatAd]: its elements, no two equal. [s.add(x)] leaves the
    set as it is when an equal element is in it. *)
Definition set_add (x : FlatAd) (s : list FlatAd) : list FlatAd :=
  if existsb (FlatAd_eq x) s then s else s ++ [x].

(** [s.update(other)] *)
Definition set_update (s other : list FlatAd) : list FlatAd :=
  fold_left (fun acc x => set_add x acc) other s.

End Models.

(** ** The scraper ([wggesuchtstats/scraper.py]) *)

Definition WG_GESUCHT_BASE_URL : string := "https://www.wg-gesucht.de".
Definition CITY_PART : string := "wg-zimmer-in-Berlin.8.0.0".

(** [str(n)] for an [int]. *)
Definition str_of_int (n : Z) : string := NilZero.string_of_int (Z.to_int n).

(** The URL of a list page. *)
Definition page_url (page_num : Z) : string :=
  (WG_GESUCHT_BASE_URL ++ "/" ++ CITY_PART ++ "." ++ str_of_int page_num
   ++ ".html?pagination=1&pu=")%string.

(** The [while True] loop of [find_shared_flats]; [parse] stands for
    [ListPageParser(text).parse()], giving the elements of the set it
    returns, or [None] when it raises. The result is [all_ads] and
    [page_num] at the [break], or [None] when the loop has not ended within
    [fuel] iterations. *)
Fixpoint scrape_pages (fuel : nat) (env : Env)
    (parse : string -> option (list Models.FlatAd))
    (end_page : option Z) (page_num : Z) (all_ads : list Models.FlatAd)
    (w : World) : option (list Models.FlatAd * Z) * World :=
  if match end_page with Some e => e <=? page_num | None => false end
  then (Some (all_ads, page_num), w)
  else
    match fuel with
    | O => (None, w)
    | S fuel' =>
        match requests_get env (page_url page_num) CONNECT_TIMEOUT READ_TIMEOUT
                MAX_ATTEMPTS false w with
        | (Returned response, w) =>
            if negb (status_code response =? 200)
            then (Some (all_ads, page_num), w)
            else
              match parse (text response) with
              | Some page_ads =>
                  if negb (nonempty page_ads) then (Some (all_ads, page_num), w)
                  else scrape_pages fuel' env parse end_page (page_num + 1)
                         (Models.set_update all_ads page_ads) w
              | None => (Some (all_ads, page_num), w)
              end
        | (Raised _, w) => (Some (all_ads, page_num), w)
        | (OutOfFuel, w) => (None, w)
        end
    end.

Definition find_shared_flats (fuel : nat) (env : Env)
    (parse : string -> option (list Models.FlatAd))
    (start_page : Z) (end_page : option Z) (w : World)
  : option (list Models.FlatAd) * World :=
  let '(res, w) := scrape_pages fuel env parse end_page start_page [] w in
  (option_map fst res, w).




(** [ListPageParser.parse]: [rows] are the rows the selector finds and
    [parse_single_ad] stands for [_parse_single_ad], [None] when it raises;
    an ad object is always truthy. *)
Definition parse_rows {Row : Type}
    (parse_single_ad : Row -> option Models.FlatAd) (rows : list Row)
  : list Models.FlatAd :=
  fold_left
    (fun ads row =>
       match parse_single_ad row with
       | Some ad => Models.set_add ad ads
       | None => ads
       end)
    rows [].

(** The rows [_parse_single_ad] does not raise on. *)
Definition parses {Row : Type}
    (parse_single_ad : Row -> option Models.FlatAd) (row : Row) : bool :=
  match parse_single_ad row with Some _ => true | None => false end.

(** A session that always answers 200 with the URL as the page text, and a
    list parser that finds one ad on the pages before page 2 and none from
    there on. *)
Definition echo_env : Env :=
  mkEnv (fun _ _ => None) (fun _ l => l)
        (fun _ u _ _ _ => Responded (mkResponse 200 u)).

Definition two_page_parse (t : string) : option (list Models.FlatAd) :=
  if String.eqb t (page_url 0) || String.eqb t (page_url 1)
  then Some [Models.mkFlatAd t (2024, 1, 31) 500 20 "Mitte" 1 1 0 2]
  else Some [].


(** Rows that are numbers: row 0 does not parse, the others give the same ad
    URL with the number as the rent. *)
Definition row_of_number (n : nat) : option Models.FlatAd :=
  match n with
  | O => None
  | S _ => Some (Models.mkFlatAd "https://www.wg-gesucht.de/1.html"
                   (2024, 1, 31) (Z.of_nat n) 20 "Mitte" 1 1 0 2)
  end.

(** * Properties *)

(** ** Text *)

Module TextFacts.
Import Text.

Lemma isspace_not_colon c : isspace c = true -> Ascii.eqb ":" c = false.
Proof.
  destruct c as [[] [] [] [] [] [] [] []]; vm_compute; congruence.
Qed.

Lemma contains_lstrip s : contains ":" (lstrip s) = contains ":" s.
Proof.
  induction s as [|c r IH]; [reflexivity|].
  cbn [lstrip]. destruct (isspace c) eqn:Hc; [|reflexivity].
  cbn [contains]. now rewrite (isspace_not_colon _ Hc), IH.
Qed.

Lemma contains_rstrip s : contains ":" (rstrip s) = contains ":" s.
Proof.
  induction s as [|c r IH]; [reflexivity|].
  cbn [rstrip contains]. rewrite <- IH.
  destruct (rstrip r) as [|d r'].
  - destruct (isspace c) eqn:Hc; cbn [contains].
    + now rewrite (isspace_not_colon _ Hc).
    + reflexivity.
  - reflexivity.
Qed.

Lemma contains_strip s : contains ":" (strip s) = contains ":" s.
Proof. unfold strip. now rewrite contains_lstrip, contains_rstrip. Qed.

End TextFacts.

Lemma qualifies_as_coded ln :
  qualifies ln = Text.truthy (Text.strip ln) && Text.contains ":" ln.
Proof. unfold qualifies. now rewrite TextFacts.contains_strip. Qed.

(** C6. The loader keeps, trimmed and in order, exactly the lines that are
    non-empty after trimming and contain a colon; a source that cannot be
    read gives the empty list; the lines "not-a-proxy", "" and
    "1.2.3.4:8080" load as the single address "1.2.3.4:8080". *)
Theorem get_proxies_loads_qualifying_lines :
  (forall text, _get_proxies (Some text) = load_spec (Text.splitlines text))
  /\ _get_proxies None = []
  /\ (forall text,
        Text.splitlines text = ["not-a-proxy"; ""; "1.2.3.4:8080"] ->
        _get_proxies (Some text) = ["1.2.3.4:8080"]).
Proof.
  assert (Hload : forall text,
             _get_proxies (Some text) = load_spec (Text.splitlines text)).
  { intros text. unfold _get_proxies, load_spec. f_equal.
    apply List.filter_ext. intros ln. symmetry. apply qualifies_as_coded. }
  split; [exact Hload|]. split; [reflexivity|].
  intros text Hlines. rewrite Hload, Hlines. reflexivity.
Qed.

Lemma get_proxies_loads_qualifying_lines_witness :
  Text.splitlines scenario_file = ["not-a-proxy"; ""; "1.2.3.4:8080"]
  /\ _get_proxies (Some scenario_file) = ["1.2.3.4:8080"].
Proof.
  split; [reflexivity|].
  apply (proj2 (proj2 get_proxies_loads_qualifying_lines) scenario_file).
  reflexivity.
Defined.

(** ** The dictionary and the comprehension over it *)

Lemma mem_In p l : mem p l = true <-> In p l.
Proof.
  unfold mem. rewrite existsb_exists. split.
  - intros (x & Hx & Heq). apply String.eqb_eq in Heq. now subst.
  - intros Hin. exists p. split; [assumption|apply String.eqb_refl].
Qed.

Lemma mem_false p l : mem p l = false <-> ~ In p l.
Proof. rewrite <- mem_In. destruct (mem p l); split; congruence. Qed.

Lemma dd_get_fst k m : fst (dd_get k m) = count_of m k.
Proof. unfold dd_get, count_of. now destruct (m !! k). Qed.

Lemma dd_get_lookup k m p :
  snd (dd_get k m) !! p =
  match m !! p with
  | Some c => Some c
  | None => if String.eqb p k then Some 0 else None
  end.
Proof.
  unfold dd_get. destruct (m !! k) eqn:Hk; cbn [snd].
  - destruct (m !! p) eqn:Hp; [reflexivity|].
    destruct (String.eqb_spec p k); [congruence|reflexivity].
  - destruct (String.eqb_spec p k) as [->|Hne].
    + now rewrite lookup_insert_eq, Hk.
    + rewrite lookup_insert_ne by congruence. now destruct (m !! p).
Qed.

Lemma dd_get_count k m p : count_of (snd (dd_get k m)) p = count_of m p.
Proof.
  unfold count_of. rewrite dd_get_lookup.
  destruct (m !! p); [reflexivity|]. now destruct (String.eqb p k).
Qed.

Lemma select_below_cons b p r m :
  select_below b (p :: r) m =
  (if fst (dd_get p m) <? b
   then p :: fst (select_below b r (snd (dd_get p m)))
   else fst (select_below b r (snd (dd_get p m))),
   snd (select_below b r (snd (dd_get p m)))).
Proof.
  cbn [select_below]. destruct (dd_get p m) as [c m1]. cbn [fst snd].
  now destruct (select_below b r m1).
Qed.

Lemma select_below_lookup b l m p :
  snd (select_below b l m) !! p =
  match m !! p with
  | Some c => Some c
  | None => if mem p l then Some 0 else None
  end.
Proof.
  revert m. induction l as [|q r IH]; intros m.
  - cbn. now destruct (m !! p).
  - rewrite select_below_cons. cbn [snd]. rewrite IH, dd_get_lookup.
    unfold mem. cbn [existsb]. fold (mem p r).
    destruct (m !! p); [reflexivity|].
    destruct (String.eqb p q); [now destruct (mem p r)|reflexivity].
Qed.

Lemma select_below_count b l m p :
  count_of (snd (select_below b l m)) p = count_of m p.
Proof.
  unfold count_of. rewrite select_below_lookup.
  destruct (m !! p); [reflexivity|]. now destruct (mem p l).
Qed.

Lemma select_below_fst b l m :
  fst (select_below b l m) = List.filter (fun p => count_of m p <? b) l.
Proof.
  revert m. induction l as [|q r IH]; intros m; [reflexivity|].
  rewrite select_below_cons. cbn [fst List.filter].
  rewrite IH, dd_get_fst.
  rewrite (List.filter_ext _ (fun p => count_of m p <? b))
    by (intros a; now rewrite dd_get_count).
  reflexivity.
Qed.

(** A second pass over the same list reads only keys that are present. *)
Lemma select_below_again b b' l m :
  select_below b' l (snd (select_below b l m)) =
  (List.filter (fun p => count_of m p <? b') l, snd (select_below b l m)).
Proof.
  rewrite (surjective_pairing (select_below b' l _)). f_equal.
  - rewrite select_below_fst. apply List.filter_ext.
    intros a. now rewrite select_below_count.
  - apply map_eq. intros p. rewrite !select_below_lookup.
    destruct (m !! p); [reflexivity|]. now destruct (mem p l).
Qed.

(** ** Health tracker *)

Lemma remove_first_absent p l : ~ In p l -> remove_first p l = l.
Proof.
  induction l as [|x r IH]; [reflexivity|]. intros Hn. cbn.
  destruct (String.eqb_spec x p) as [->|_].
  - exfalso. apply Hn. now left.
  - f_equal. apply IH. intros H. apply Hn. now right.
Qed.

(** Where the address is listed once, removing it leaves no copy behind. *)
Lemma remove_first_unique p l :
  count_occ string_dec l p = 1%nat -> ~ In p (remove_first p l).
Proof.
  induction l as [|x r IH]; [easy|]. cbn [remove_first count_occ].
  destruct (string_dec x p) as [->|Hne].
  - rewrite String.eqb_refl. intros H. injection H as H.
    now apply (count_occ_not_In string_dec).
  - destruct (String.eqb_spec x p) as [->|_]; [congruence|].
    intros H [->|Hin]; [congruence|]. now apply IH.
Qed.

Lemma remove_failed_eq p w :
  _remove_failed_proxy_locked p w =
  mkWorld (remove_first p (proxy_list w)) (delete p (proxy_failure_counts w))
          (tick w) (trace w).
Proof.
  unfold _remove_failed_proxy_locked. destruct (mem p (proxy_list w)) eqn:Hm.
  - reflexivity.
  - apply mem_false in Hm. cbn. now rewrite (remove_first_absent _ _ Hm).
Qed.

Lemma insert_after_dd_get p c (m : gmap string Z) :
  <[p:=c]> (snd (dd_get p m)) = <[p:=c]> m.
Proof.
  unfold dd_get. destruct (m !! p); [reflexivity|]. cbn.
  apply insert_insert_eq.
Qed.

(** What a recorded failure of a non-empty address does. *)
Lemma handle_failure_eq p w :
  Text.truthy p = true ->
  _handle_proxy_failure (Some p) w =
  let c := count_of (proxy_failure_counts w) p + 1 in
  if c >=? PROXY_REMOVE_AFTER
  then mkWorld (remove_first p (proxy_list w))
               (delete p (proxy_failure_counts w))
               (tick w) (EvFailure p c :: trace w)
  else mkWorld (proxy_list w) (<[p:=c]> (proxy_failure_counts w))
               (tick w) (EvFailure p c :: trace w).
Proof.
  intros Hp. unfold _handle_proxy_failure. rewrite Hp. cbn [negb].
  cbn [log proxy_failure_counts].
  rewrite (surjective_pairing (dd_get p (proxy_failure_counts w))).
  rewrite dd_get_fst. cbn zeta.
  destruct (count_of (proxy_failure_counts w) p + 1 >=? PROXY_REMOVE_AFTER).
  - rewrite remove_failed_eq. cbn. f_equal.
    rewrite insert_after_dd_get. apply delete_insert_eq.
  - unfold set_counts. cbn. now rewrite insert_after_dd_get.
Qed.

(** [None] and the empty string stand for "no proxy": the guard [if not p]
    leaves the pool as it is. *)
Lemma handle_failure_falsy w :
  _handle_proxy_failure None w = w /\ _handle_proxy_failure (Some "") w = w.
Proof. split; reflexivity. Qed.

Lemma handle_success_eq p w :
  Text.truthy p = true ->
  _handle_proxy_success (Some p) w =
  mkWorld (proxy_list w) (<[p:=0]> (proxy_failure_counts w))
          (tick w) (EvSuccess p :: trace w).
Proof. intros Hp. unfold _handle_proxy_success. now rewrite Hp. Qed.

Lemma truthy_nonempty p : Text.truthy p = true <-> p <> "".
Proof. destruct p; cbn; split; congruence. Qed.

(** ** The usable snapshot *)

Lemma snapshot_fst w :
  fst (_snapshot_local w) =
  if nonempty (usable w) then usable w else proxy_list w.
Proof.
  unfold _snapshot_local, usable. rewrite <- select_below_fst.
  now destruct (select_below _ _ _).
Qed.

Lemma snapshot_snd w :
  snd (_snapshot_local w) =
  set_counts
    (snd (select_below SOFT_EXCLUDE_AFTER (proxy_list w)
            (proxy_failure_counts w))) w.
Proof. unfold _snapshot_local. now destruct (select_below _ _ _). Qed.

Lemma nonempty_true {A} (l : list A) : nonempty l = true <-> l <> [].
Proof. destruct l; cbn; split; congruence. Qed.

Lemma filter_nil_none {A} (f : A -> bool) l :
  (forall x, In x l -> f x = false) -> List.filter f l = [].
Proof.
  induction l as [|x r IH]; [reflexivity|]. intros H. cbn.
  rewrite (H x) by now left. apply IH. intros y Hy. apply H. now right.
Qed.

(** C4. The usable snapshot is the list of the pool's addresses whose
    failure count is below the soft threshold, in the pool's order, whenever
    there is such an address; when the pool is not empty and every address
    has reached the soft threshold, it is the whole address list, which is
    not empty. *)
Theorem snapshot_local_usable_or_all w :
  fst (_snapshot_local w)
  = (if nonempty (usable w) then usable w else proxy_list w)
  /\ (usable w <> [] -> fst (_snapshot_local w) = usable w)
  /\ (proxy_list w <> [] ->
      (forall p, In p (proxy_list w) ->
                 SOFT_EXCLUDE_AFTER <= count_of (proxy_failure_counts w) p) ->
      fst (_snapshot_local w) = proxy_list w
      /\ fst (_snapshot_local w) <> []).
Proof.
  split; [apply snapshot_fst|]. split.
  - intros Hne. rewrite snapshot_fst.
    apply nonempty_true in Hne. now rewrite Hne.
  - intros Hne Hall. rewrite snapshot_fst.
    assert (Hu : usable w = []).
    { apply filter_nil_none. intros p Hp. apply Z.ltb_ge. now apply Hall. }
    rewrite Hu. cbn. split; [reflexivity|assumption].
Qed.

Lemma snapshot_local_usable_or_all_witness :
  (usable one_soft <> [] /\ fst (_snapshot_local one_soft) = usable one_soft)
  /\ (proxy_list both_soft <> []
      /\ fst (_snapshot_local both_soft) = proxy_list both_soft
      /\ fst (_snapshot_local both_soft) <> []).
Proof.
  split.
  - assert (H : usable one_soft <> []) by (vm_compute; discriminate).
    split; [exact H|].
    exact (proj1 (proj2 (snapshot_local_usable_or_all one_soft)) H).
  - assert (H : proxy_list both_soft <> []) by (vm_compute; discriminate).
    split; [exact H|].
    apply (proj2 (proj2 (snapshot_local_usable_or_all both_soft)) H).
    intros p [<-|[<-|[]]]; vm_compute; discriminate.
Defined.

(** C9. Recording a success for a proxy address (a non-empty string: the
    guard takes [None] and the empty string for "no proxy") sets its failure
    count to 0, whatever it was; the count is then below the soft threshold,
    and an address of the list is part of the next usable snapshot. *)
Theorem handle_success_resets_count (p : string) (w : World) :
  p <> "" ->
  let w' := _handle_proxy_success (Some p) w in
  proxy_failure_counts w' !! p = Some 0
  /\ count_of (proxy_failure_counts w') p < SOFT_EXCLUDE_AFTER
  /\ proxy_list w' = proxy_list w
  /\ (In p (proxy_list w) -> In p (fst (_snapshot_local w'))).
Proof.
  intros Hp. apply truthy_nonempty in Hp. cbn zeta.
  rewrite (handle_success_eq _ _ Hp). cbn [proxy_failure_counts proxy_list].
  assert (Hc : count_of (<[p:=0]> (proxy_failure_counts w)) p = 0).
  { unfold count_of. now rewrite lookup_insert_eq. }
  split; [apply lookup_insert_eq|]. split; [rewrite Hc; reflexivity|].
  split; [reflexivity|]. intros Hin.
  assert (Hu : In p (usable (mkWorld (proxy_list w)
                               (<[p:=0]> (proxy_failure_counts w))
                               (tick w) (EvSuccess p :: trace w)))).
  { unfold usable. cbn [proxy_failure_counts proxy_list].
    apply List.filter_In. split; [assumption|]. now rewrite Hc. }
  rewrite snapshot_fst. destruct (usable _); [destruct Hu|exact Hu].
Qed.

Lemma handle_success_resets_count_witness :
  "p1:8080" <> ""
  /\ proxy_failure_counts (_handle_proxy_success (Some "p1:8080") both_soft)
       !! "p1:8080" = Some 0
  /\ In "p1:8080"
       (fst (_snapshot_local (_handle_proxy_success (Some "p1:8080") both_soft))).
Proof.
  assert (H : "p1:8080" <> "") by discriminate.
  destruct (handle_success_resets_count "p1:8080" both_soft H)
    as (H1 & _ & _ & H4).
  split; [exact H|]. split; [exact H1|]. apply H4. now left.
Defined.

(** ** The stats query *)

Lemma get_proxy_stats_eq w :
  get_proxy_stats w =
  let m := snd (select_below PROXY_REMOVE_AFTER (proxy_list w)
                  (proxy_failure_counts w)) in
  (mkStats (Z.of_nat (length (proxy_list w)))
           (Z.of_nat (length (healthy w))) m,
   set_counts m w).
Proof.
  unfold get_proxy_stats, healthy. rewrite <- select_below_fst.
  now destruct (select_below _ _ _).
Qed.

(** C8, as worded, fails on a pool that has seen nothing: the dictionary is
    not what it was before the query. *)
Lemma get_proxy_stats_changes_dictionary :
  proxy_failure_counts (snd (get_proxy_stats fresh_single))
  <> proxy_failure_counts fresh_single.
Proof.
  intros H.
  assert (H0 : proxy_failure_counts (snd (get_proxy_stats fresh_single))
               !! "1.2.3.4:8080" = Some 0) by (vm_compute; reflexivity).
  rewrite H in H0. vm_compute in H0. discriminate.
Qed.

(** C8 (amended). The stats query leaves the address list, and the failure
    count read for every address, as they were; in the dictionary it only
    adds an entry 0 for each listed address that had none. It returns the
    length of the list, the number of listed addresses whose count is below
    the removal threshold, and a copy of the dictionary as it is after the
    query. *)
Theorem get_proxy_stats_reads_only w :
  let stats := fst (get_proxy_stats w) in
  let w' := snd (get_proxy_stats w) in
  proxy_list w' = proxy_list w
  /\ tick w' = tick w /\ trace w' = trace w
  /\ (forall p, count_of (proxy_failure_counts w') p
                = count_of (proxy_failure_counts w) p)
  /\ (forall p, proxy_failure_counts w' !! p =
                match proxy_failure_counts w !! p with
                | Some c => Some c
                | None => if mem p (proxy_list w) then Some 0 else None
                end)
  /\ total_proxies stats = Z.of_nat (length (proxy_list w))
  /\ healthy_proxies stats = Z.of_nat (length (healthy w))
  /\ failure_counts stats = proxy_failure_counts w'.
Proof.
  cbn zeta. rewrite get_proxy_stats_eq. cbn.
  repeat split; try reflexivity.
  - intros p. apply select_below_count.
  - intros p. apply select_below_lookup.
Qed.

(** Asked again, the query answers the same and changes nothing more. *)
Lemma get_proxy_stats_again w :
  get_proxy_stats (snd (get_proxy_stats w))
  = (fst (get_proxy_stats w), snd (get_proxy_stats w)).
Proof.
  rewrite !get_proxy_stats_eq. cbn [fst snd]. cbv zeta.
  unfold healthy, set_counts. cbn [proxy_list proxy_failure_counts tick trace].
  rewrite !select_below_again. cbn [fst snd].
  rewrite <- select_below_fst at 1.
  rewrite select_below_again. cbn [fst]. reflexivity.
Qed.

(** ** Removal after repeated failures *)

Lemma snapshot_In q w : In q (fst (_snapshot_local w)) -> In q (proxy_list w).
Proof.
  rewrite snapshot_fst. destruct (nonempty (usable w)); [|easy].
  unfold usable. intros H. now apply List.filter_In in H.
Qed.

(** An address listed at most once, with no failure on record, is gone from
    the list, the dictionary and the next snapshot after two failures. *)
Lemma handle_failure_twice_removes_single (p : string) (w : World) :
  p <> "" ->
  count_of (proxy_failure_counts w) p = 0 ->
  (count_occ string_dec (proxy_list w) p <= 1)%nat ->
  let w' := _handle_proxy_failure (Some p) (_handle_proxy_failure (Some p) w) in
  ~ In p (proxy_list w')
  /\ proxy_failure_counts w' !! p = None
  /\ ~ In p (fst (_snapshot_local w')).
Proof.
  intros Hp H0 Hocc. apply truthy_nonempty in Hp. cbn zeta.
  rewrite (handle_failure_eq p w Hp). cbn zeta. rewrite H0.
  change (0 + 1 >=? PROXY_REMOVE_AFTER) with false. cbn iota.
  rewrite (handle_failure_eq p _ Hp). cbn zeta.
  cbn [proxy_failure_counts proxy_list tick trace].
  assert (Hc : count_of (<[p:=0 + 1]> (proxy_failure_counts w)) p = 1).
  { unfold count_of. now rewrite lookup_insert_eq. }
  rewrite !Hc. change (1 + 1 >=? PROXY_REMOVE_AFTER) with true.
  cbn iota. cbn [proxy_failure_counts proxy_list].
  assert (Hgone : ~ In p (remove_first p (proxy_list w))).
  { destruct (count_occ string_dec (proxy_list w) p) as [|[|n]] eqn:Hn.
    - apply (count_occ_not_In string_dec) in Hn.
      now rewrite remove_first_absent.
    - now apply remove_first_unique.
    - lia. }
  split; [exact Hgone|]. split; [apply lookup_delete_eq|].
  intros H. apply snapshot_In in H. exact (Hgone H).
Qed.

(** C2. On a pool that lists one address twice, two failures in a row
    recorded for it take one copy out and forget the count: the address is
    still in the list, and in the next usable snapshot; a fetch whose two
    attempts fail leaves the pool in the same way. *)
Theorem handle_failure_twice_keeps_listed_twice :
  let p := "1.2.3.4:8080" in
  let w' := _handle_proxy_failure (Some p)
              (_handle_proxy_failure (Some p) twice_listed) in
  count_of (proxy_failure_counts twice_listed) p = 0
  /\ proxy_list w' = [p]
  /\ proxy_failure_counts w' !! p = None
  /\ fst (_snapshot_local w') = [p]
  /\ failures_of (trace w') = [(p, 2); (p, 1)]
  /\ proxy_list
       (snd (requests_get failing_env "https://www.wg-gesucht.de" 3 5 2 false
               twice_listed)) = [p].
Proof. vm_compute. repeat split; reflexivity. Qed.

(** ** The bound on the recorded counts *)

Lemma bounded_invariant w : counts_bounded w -> pool_invariant w.
Proof. intros Hb p c Hpc Hc. specialize (Hb p c Hpc). lia. Qed.

Lemma handle_failure_bounded p w :
  counts_bounded w -> counts_bounded (_handle_proxy_failure p w).
Proof.
  intros Hb. destruct p as [p|]; [|exact Hb].
  destruct (Text.truthy p) eqn:Hp.
  - rewrite (handle_failure_eq p w Hp). cbn zeta.
    destruct (_ >=? _) eqn:Hc; intros q c; cbn [proxy_failure_counts].
    + rewrite lookup_delete. destruct (decide (p = q)); [easy|]. apply Hb.
    + rewrite lookup_insert. destruct (decide (p = q)).
      * intros [= <-]. rewrite Z.geb_leb in Hc. apply Z.leb_gt in Hc. lia.
      * apply Hb.
  - unfold _handle_proxy_failure. now rewrite Hp.
Qed.

Lemma handle_success_bounded p w :
  counts_bounded w -> counts_bounded (_handle_proxy_success p w).
Proof.
  intros Hb. destruct p as [p|]; [|exact Hb].
  unfold _handle_proxy_success. destruct (Text.truthy p); [|exact Hb].
  intros q c. cbn. rewrite lookup_insert. destruct (decide (p = q)).
  - intros [= <-]. reflexivity.
  - apply Hb.
Qed.

Lemma ensure_counts env w :
  proxy_failure_counts (_ensure_global_proxies env w) = proxy_failure_counts w.
Proof.
  unfold _ensure_global_proxies. destruct (nonempty (proxy_list w)); [easy|].
  now destruct (_ && _).
Qed.

Lemma ensure_bounded env w :
  counts_bounded w -> counts_bounded (_ensure_global_proxies env w).
Proof. unfold counts_bounded. now rewrite ensure_counts. Qed.

Lemma select_below_bounded b l w :
  counts_bounded w ->
  counts_bounded (set_counts (snd (select_below b l (proxy_failure_counts w))) w).
Proof.
  intros Hb p c. cbn. rewrite select_below_lookup.
  destruct (proxy_failure_counts w !! p) eqn:Hp.
  - intros [= <-]. now apply (Hb p).
  - destruct (mem p l); [intros [= <-]; reflexivity|easy].
Qed.

Lemma snapshot_bounded w :
  counts_bounded w -> counts_bounded (snd (_snapshot_local w)).
Proof. rewrite snapshot_snd. apply select_below_bounded. Qed.

Lemma stats_bounded w :
  counts_bounded w -> counts_bounded (snd (get_proxy_stats w)).
Proof. rewrite get_proxy_stats_eq. apply select_below_bounded. Qed.

(** ** The loop body *)

Lemma retry_step_unfold env url ct rt cb attempt i local w :
  retry_step env url ct rt cb attempt i local w =
  match next_cursor env i local w with
  | (None, w1) => Stop (Raised NoProxiesAvailable) w1
  | (Some (l, j), w1) =>
      match l !! j with
      | None => Stop (Raised IndexError) w1
      | Some proxy => try_proxy env url ct rt cb attempt j l proxy w1
      end
  end.
Proof.
  unfold retry_step, next_cursor, try_proxy.
  destruct (if (length local <=? i)%nat then resnapshot env w
            else (Some (local, i), w)) as [[[l j]|] w1]; [|reflexivity].
  now destruct (l !! j) as [proxy|].
Qed.

Lemma resnapshot_eq env w :
  resnapshot env w =
  let w1 := _ensure_global_proxies env w in
  let local := fst (_snapshot_local w1) in
  let w2 := snd (_snapshot_local w1) in
  if nonempty local
  then (Some (shuffle env (tick w2) local, 0%nat),
        advance (log (EvShuffle local) w2))
  else (None, w2).
Proof.
  unfold resnapshot. cbn zeta.
  destruct (_snapshot_local (_ensure_global_proxies env w)) as [local w2].
  cbn [fst snd]. now destruct (nonempty local).
Qed.

Lemma retry_step_bounded env url ct rt cb attempt i local w :
  counts_bounded w ->
  match retry_step env url ct rt cb attempt i local w with
  | Continue _ _ _ w' => counts_bounded w'
  | Stop _ w' => counts_bounded w'
  end.
Proof.
  intros Hb. rewrite retry_step_unfold.
  assert (Hc : counts_bounded (snd (next_cursor env i local w))).
  { unfold next_cursor. destruct (length local <=? i)%nat; [|exact Hb].
    rewrite resnapshot_eq. cbn zeta.
    assert (H2 : counts_bounded
                   (snd (_snapshot_local (_ensure_global_proxies env w))))
      by now apply snapshot_bounded, ensure_bounded.
    destruct (nonempty _); exact H2. }
  destruct (next_cursor env i local w) as [[[l j]|] w1]; cbn [snd] in Hc;
    [|exact Hc].
  destruct (l !! j) as [proxy|]; [|exact Hc].
  unfold try_proxy.
  set (w2 := if cb then log (EvCallback (attempt + 1) proxy) w1 else w1).
  assert (H2 : counts_bounded w2) by (subst w2; destruct cb; exact Hc).
  set (o := session_get env (tick w2) url proxy ct rt).
  assert (H3 : counts_bounded (advance (log (EvGet url proxy o) w2)))
    by exact H2.
  destruct o as [r|]; [destruct (_is_retryable_status (status_code r))|].
  - exact (handle_failure_bounded _ _ H3).
  - exact (handle_success_bounded _ _ H3).
  - exact (handle_failure_bounded _ _ H3).
Qed.

Lemma retry_loop_bounded env url ct rt n cb fuel :
  forall attempt i local w,
    counts_bounded w ->
    counts_bounded
      (snd (retry_loop fuel env url ct rt n cb attempt i local w)).
Proof.
  induction fuel as [|fuel IH]; intros attempt i local w Hb;
    cbn [retry_loop]; destruct (attempt <? n).
  - exact Hb.
  - rewrite (surjective_pairing (get_proxy_stats w)). now apply stats_bounded.
  - pose proof (retry_step_bounded env url ct rt cb attempt i local w Hb) as Hs.
    destruct (retry_step env url ct rt cb attempt i local w); [|exact Hs].
    now apply IH.
  - rewrite (surjective_pairing (get_proxy_stats w)). now apply stats_bounded.
Qed.

Lemma requests_get_eq env url ct rt n cb w :
  requests_get env url ct rt n cb w =
  let w1 := _ensure_global_proxies env w in
  let local := fst (_snapshot_local w1) in
  let w2 := snd (_snapshot_local w1) in
  retry_loop (Z.to_nat n) env url ct rt n cb 0 0%nat
    (shuffle env (tick w2) local) (advance (log (EvShuffle local) w2)).
Proof.
  unfold requests_get. cbn zeta.
  now destruct (_snapshot_local (_ensure_global_proxies env w)).
Qed.

Lemma requests_get_bounded env url ct rt n cb w :
  counts_bounded w -> counts_bounded (snd (requests_get env url ct rt n cb w)).
Proof.
  intros Hb. rewrite requests_get_eq. cbn zeta. apply retry_loop_bounded.
  exact (snapshot_bounded _ (ensure_bounded env _ Hb)).
Qed.

Lemma run_op_bounded env w op :
  counts_bounded w -> counts_bounded (run_op env w op).
Proof.
  intros Hb. destruct op; cbn [run_op].
  - now apply handle_success_bounded.
  - now apply handle_failure_bounded.
  - now apply ensure_bounded.
  - now apply snapshot_bounded.
  - now apply stats_bounded.
  - now apply requests_get_bounded.
Qed.

Lemma run_ops_bounded env ops :
  forall w, counts_bounded w -> counts_bounded (run_ops env ops w).
Proof.
  unfold run_ops. induction ops as [|op ops IH]; intros w Hb; [exact Hb|].
  cbn [fold_left]. apply IH. now apply run_op_bounded.
Qed.

(** C7. Starting from the empty state of process start, after any sequence
    of recorded successes, recorded failures, lazy seedings, snapshots,
    stats queries and whole fetches, no address of the address list has a
    recorded count at or above the removal threshold. *)
Theorem pool_invariant_always (env : Env) (ops : list PoolOp) :
  pool_invariant (run_ops env ops initial_world).
Proof.
  apply bounded_invariant, run_ops_bounded.
  intros p c. cbn. now rewrite lookup_empty.
Qed.

(** ** What the operations leave in the log *)

Lemma quiet_trans w1 w2 w3 : quiet w1 w2 -> quiet w2 w3 -> quiet w1 w3.
Proof.
  intros (A1 & F1 & S1 & C1) (A2 & F2 & S2 & C2).
  split; [congruence|]. split; [congruence|]. split; [congruence|].
  intros p. now rewrite C2.
Qed.

Lemma ensure_trace env w :
  trace (_ensure_global_proxies env w) =
  if nonempty (proxy_list w) then trace w else EvRead PROXY_FILE :: trace w.
Proof.
  unfold _ensure_global_proxies. destruct (nonempty (proxy_list w)); [easy|].
  now destruct (_ && _).
Qed.

Lemma ensure_quiet env w : quiet w (_ensure_global_proxies env w).
Proof.
  unfold quiet. rewrite ensure_trace, ensure_counts.
  now destruct (nonempty (proxy_list w)).
Qed.

Lemma snapshot_quiet w : quiet w (snd (_snapshot_local w)).
Proof.
  rewrite snapshot_snd. repeat split. intros p. apply select_below_count.
Qed.

Lemma stats_quiet w : quiet w (snd (get_proxy_stats w)).
Proof.
  rewrite get_proxy_stats_eq. repeat split. intros p. apply select_below_count.
Qed.

Lemma shuffle_quiet l w : quiet w (advance (log (EvShuffle l) w)).
Proof. now repeat split. Qed.

Lemma handle_failure_attempts p w :
  attempts_of (trace (_handle_proxy_failure p w)) = attempts_of (trace w).
Proof.
  destruct p as [p|]; [|reflexivity]. destruct (Text.truthy p) eqn:Hp.
  - rewrite (handle_failure_eq p w Hp). cbn zeta. now destruct (_ >=? _).
  - unfold _handle_proxy_failure. now rewrite Hp.
Qed.

Lemma handle_success_attempts p w :
  attempts_of (trace (_handle_proxy_success p w)) = attempts_of (trace w).
Proof.
  destruct p as [p|]; [|reflexivity]. unfold _handle_proxy_success.
  now destruct (Text.truthy p).
Qed.

Lemma is_retryable_In code : _is_retryable_status code = true <-> In code RETRYABLE.
Proof.
  unfold _is_retryable_status. rewrite existsb_exists. split.
  - intros (x & Hx & Heq). apply Z.eqb_eq in Heq. now subst.
  - intros H. exists code. split; [exact H|apply Z.eqb_refl].
Qed.

(** The attempt through a chosen proxy: it is logged; a failed one is
    retried, another one ends the call with its response. *)
Lemma try_proxy_log env url ct rt cb attempt i local proxy w :
  match try_proxy env url ct rt cb attempt i local proxy w with
  | Continue a' _ _ w' =>
      a' = attempt + 1
      /\ exists o, failed_attempt o = true
                  /\ attempts_of (trace w') = o :: attempts_of (trace w)
  | Stop res w' =>
      exists r, res = Returned r
                /\ _is_retryable_status (status_code r) = false
                /\ attempts_of (trace w') = Responded r :: attempts_of (trace w)
  end.
Proof.
  unfold try_proxy.
  set (w1 := if cb then log (EvCallback (attempt + 1) proxy) w else w).
  assert (H1 : attempts_of (trace w1) = attempts_of (trace w))
    by (subst w1; now destruct cb).
  set (o := session_get env (tick w1) url proxy ct rt).
  destruct o as [r|] eqn:Ho;
    [destruct (_is_retryable_status (status_code r)) eqn:Hr|].
  - split; [reflexivity|]. exists (Responded r). split; [exact Hr|].
    unfold sleep_jitter. cbn [trace advance log attempts_of].
    rewrite handle_failure_attempts. cbn. now rewrite H1.
  - exists r. split; [reflexivity|]. split; [exact Hr|].
    rewrite handle_success_attempts. cbn. now rewrite H1.
  - split; [reflexivity|]. exists RequestFailed. split; [reflexivity|].
    unfold sleep_jitter. cbn [trace advance log attempts_of].
    rewrite handle_failure_attempts. cbn. now rewrite H1.
Qed.

Lemma snapshot_list w : proxy_list (snd (_snapshot_local w)) = proxy_list w.
Proof. now rewrite snapshot_snd. Qed.

Lemma snapshot_tick w : tick (snd (_snapshot_local w)) = tick w.
Proof. now rewrite snapshot_snd. Qed.

Lemma snapshot_trace w : trace (snd (_snapshot_local w)) = trace w.
Proof. now rewrite snapshot_snd. Qed.

Lemma snapshot_empty w : nonempty (fst (_snapshot_local w)) = false ->
  proxy_list w = [].
Proof.
  rewrite snapshot_fst. destruct (nonempty (usable w)) eqn:Hu; [congruence|].
  now destruct (proxy_list w).
Qed.

(** A seeding that leaves the list empty has read the file and found no
    address in it. *)
Lemma ensure_empty env w :
  proxy_list (_ensure_global_proxies env w) = [] ->
  proxy_list w = []
  /\ _get_proxies (read_file env (tick w) PROXY_FILE) = []
  /\ tick (_ensure_global_proxies env w) = S (tick w)
  /\ trace (_ensure_global_proxies env w) = EvRead PROXY_FILE :: trace w.
Proof.
  unfold _ensure_global_proxies.
  destruct (proxy_list w) as [|x l] eqn:Hl; cbn [nonempty]; [|congruence].
  cbn [advance log proxy_list]. rewrite Hl. cbn [nonempty negb andb].
  destruct (_get_proxies _) as [|y l']; cbn; [easy|congruence].
Qed.

(** The block that refills the local snapshot. *)
Lemma resnapshot_log env w :
  shuffle_ok env ->
  match resnapshot env w with
  | (Some (l, j), w') => j = 0%nat /\ l <> [] /\ quiet w w'
  | (None, w') =>
      quiet w w' /\ proxy_list w' = []
      /\ _get_proxies (read_file env (tick w) PROXY_FILE) = []
      /\ tick w' = S (tick w)
      /\ trace w' = EvRead PROXY_FILE :: trace w
  end.
Proof.
  intros Hs. rewrite resnapshot_eq. cbn zeta.
  set (w1 := _ensure_global_proxies env w).
  assert (Hq : quiet w (snd (_snapshot_local w1)))
    by exact (quiet_trans _ _ _ (ensure_quiet env w) (snapshot_quiet w1)).
  destruct (nonempty (fst (_snapshot_local w1))) eqn:Hne.
  - split; [reflexivity|]. split.
    + intros Hnil. apply nonempty_true in Hne. apply Hne.
      apply Permutation_nil. rewrite <- Hnil. symmetry. apply Hs.
    + exact (quiet_trans _ _ _ Hq (shuffle_quiet _ _)).
  - apply snapshot_empty in Hne.
    destruct (ensure_empty env w Hne) as (_ & Hg & Ht & Htr).
    split; [exact Hq|]. rewrite snapshot_list, snapshot_tick, snapshot_trace.
    now repeat split.
Qed.

(** ** The loop *)

Lemma ends_as_earlier env n budget during res w' o :
  failed_attempt o = true ->
  ends_as env n budget during res w' ->
  ends_as env n (S budget) (during ++ [o]) res w'.
Proof.
  intros Ho. destruct res as [r|[|m st|]|]; cbn [ends_as]; try easy.
  - intros (rest & -> & Hf & Hr & Hlen). exists (rest ++ [o]).
    split; [reflexivity|]. split.
    + rewrite forallb_app, Hf. cbn. now rewrite Ho.
    + split; [exact Hr|]. rewrite length_app. cbn in *. lia.
  - intros (Hf & Hlen & Hrest). split.
    + rewrite forallb_app, Hf. cbn. now rewrite Ho.
    + rewrite length_app. cbn. split; [lia|exact Hrest].
  - intros (-> & Hf & Hlen & Hst). split; [reflexivity|]. split.
    + rewrite forallb_app, Hf. cbn. now rewrite Ho.
    + rewrite length_app. cbn. split; [lia|exact Hst].
Qed.

Lemma retry_loop_log env url ct rt n cb :
  shuffle_ok env ->
  forall fuel attempt i local w,
    (Z.to_nat (n - attempt) <= fuel)%nat ->
    exists during,
      attempts_of
        (trace (snd (retry_loop fuel env url ct rt n cb attempt i local w)))
      = during ++ attempts_of (trace w)
      /\ ends_as env n (Z.to_nat (n - attempt)) during
           (fst (retry_loop fuel env url ct rt n cb attempt i local w))
           (snd (retry_loop fuel env url ct rt n cb attempt i local w)).
Proof.
  intros Hs.
  assert (Hout : forall fuel attempt i local w,
             (attempt <? n) = false ->
             exists during,
               attempts_of
                 (trace (snd (retry_loop fuel env url ct rt n cb attempt i local w)))
               = during ++ attempts_of (trace w)
               /\ ends_as env n (Z.to_nat (n - attempt)) during
                    (fst (retry_loop fuel env url ct rt n cb attempt i local w))
                    (snd (retry_loop fuel env url ct rt n cb attempt i local w))).
  { intros fuel attempt i local w Hlt.
    assert (Heq : retry_loop fuel env url ct rt n cb attempt i local w
                  = (Raised (FailedAfter n (fst (get_proxy_stats w))),
                     snd (get_proxy_stats w))).
    { destruct fuel; cbn [retry_loop]; rewrite Hlt;
        now destruct (get_proxy_stats w). }
    rewrite Heq. cbn [fst snd]. exists []. split.
    - apply (stats_quiet w).
    - cbn [ends_as]. apply Z.ltb_ge in Hlt.
      split; [reflexivity|]. split; [reflexivity|].
      split; [cbn; lia|apply get_proxy_stats_again]. }
  induction fuel as [|fuel IH]; intros attempt i local w Hfuel;
    destruct (attempt <? n) eqn:Hlt; try (now apply Hout).
  - apply Z.ltb_lt in Hlt. lia.
  - cbn [retry_loop]. rewrite Hlt. apply Z.ltb_lt in Hlt.
    assert (Hbudget : Z.to_nat (n - attempt)
                      = S (Z.to_nat (n - (attempt + 1)))) by lia.
    assert (Htry : forall l j proxy w1,
               attempts_of (trace w1) = attempts_of (trace w) ->
               let step := try_proxy env url ct rt cb attempt j l proxy w1 in
               let out := match step with
                          | Continue a j' l' w2 =>
                              retry_loop fuel env url ct rt n cb a j' l' w2
                          | Stop r w2 => (r, w2)
                          end in
               exists during,
                 attempts_of (trace (snd out)) = during ++ attempts_of (trace w)
                 /\ ends_as env n (Z.to_nat (n - attempt)) during
                      (fst out) (snd out)).
    { intros l j proxy w1 H1. cbn zeta.
      pose proof (try_proxy_log env url ct rt cb attempt j l proxy w1) as Ht.
      destruct (try_proxy env url ct rt cb attempt j l proxy w1)
        as [a j' l' w2|res w2].
      - destruct Ht as (-> & o & Ho & Htr).
        destruct (IH (attempt + 1) j' l' w2) as (during & Hd & He); [lia|].
        exists (during ++ [o]). split.
        + rewrite Hd, Htr, H1, <- app_assoc. reflexivity.
        + rewrite Hbudget. now apply ends_as_earlier.
      - destruct Ht as (r & -> & Hr & Htr). cbn [fst snd].
        exists [Responded r]. split; [now rewrite Htr, H1|].
        cbn [ends_as]. exists []. repeat split; [exact Hr|cbn; lia]. }
    rewrite retry_step_unfold. unfold next_cursor.
    destruct (length local <=? i)%nat eqn:Hlen.
    + pose proof (resnapshot_log env w Hs) as Hr.
      destruct (resnapshot env w) as [[[l j]|] w1].
      * destruct Hr as (-> & Hne & Hq). destruct l as [|proxy l]; [easy|].
        cbn [lookup list_lookup]. apply Htry. apply Hq.
      * destruct Hr as (Hq & Hl & Hg & Ht & Htr). cbn [fst snd].
        exists []. split; [apply Hq|]. cbn [ends_as].
        split; [reflexivity|]. split; [cbn; lia|]. split; [exact Hl|].
        rewrite Ht. cbn [pred]. split; [exact Hg|eauto].
    + apply Nat.leb_gt in Hlen.
      destruct (lookup_lt_is_Some_2 local i Hlen) as [proxy Hp].
      rewrite Hp. now apply Htry.
Qed.

(** A call of the fetch operation, for any world, URL and budget. *)
Lemma requests_get_log env url ct rt n cb w :
  shuffle_ok env ->
  exists during,
    attempts_of (trace (snd (requests_get env url ct rt n cb w)))
    = during ++ attempts_of (trace w)
    /\ ends_as env n (Z.to_nat n) during
         (fst (requests_get env url ct rt n cb w))
         (snd (requests_get env url ct rt n cb w)).
Proof.
  intros Hs. rewrite requests_get_eq. cbn zeta.
  set (w1 := _ensure_global_proxies env w).
  set (w2 := snd (_snapshot_local w1)).
  set (w3 := advance (log _ w2)).
  set (local := shuffle env _ _).
  destruct (retry_loop_log env url ct rt n cb Hs (Z.to_nat n) 0 0%nat local w3)
    as (during & Hd & He); [lia|].
  exists during. rewrite Z.sub_0_r in He. split; [|exact He].
  rewrite Hd. f_equal.
  transitivity (attempts_of (trace w1)); [apply (snapshot_quiet w1)|].
  apply (ensure_quiet env w).
Qed.

Lemma identity_shuffle_ok rf sg : shuffle_ok (mkEnv rf (fun _ l => l) sg).
Proof. intros k l. apply Permutation_refl. Qed.

(** With an empty pool and a proxy file that never gives an address, a call
    with a positive budget ends at the first test of the local snapshot. *)
Lemma requests_get_empty_pool env url ct rt n cb w :
  shuffle_ok env ->
  proxy_list w = [] ->
  (forall k, _get_proxies (read_file env k PROXY_FILE) = []) ->
  0 < n ->
  fst (requests_get env url ct rt n cb w) = Raised NoProxiesAvailable
  /\ attempts_of (trace (snd (requests_get env url ct rt n cb w)))
     = attempts_of (trace w).
Proof.
  intros Hs Hl Hfile Hn.
  assert (Hens : forall v, proxy_list v = [] ->
             proxy_list (_ensure_global_proxies env v) = []).
  { intros v Hv. unfold _ensure_global_proxies. rewrite Hv. cbn [nonempty].
    rewrite Hfile. cbn [nonempty]. rewrite andb_false_r. exact Hv. }
  assert (Hsnap : forall v, proxy_list v = [] -> fst (_snapshot_local v) = []).
  { intros v Hv. rewrite snapshot_fst. unfold usable. rewrite Hv. reflexivity. }
  rewrite requests_get_eq. cbn zeta.
  set (w1 := _ensure_global_proxies env w).
  assert (H1 : proxy_list w1 = []) by now apply Hens.
  rewrite (Hsnap w1 H1).
  set (w3 := advance (log (EvShuffle []) (snd (_snapshot_local w1)))).
  assert (H3 : proxy_list w3 = []) by (subst w3; cbn; now rewrite snapshot_list).
  assert (Hq3 : quiet w w3).
  { eapply quiet_trans; [apply (ensure_quiet env w)|].
    eapply quiet_trans; [apply (snapshot_quiet w1)|apply shuffle_quiet]. }
  assert (Hnil : shuffle env (tick (snd (_snapshot_local w1))) [] = []).
  { apply Permutation_nil. apply Hs. }
  rewrite Hnil.
  destruct (Z.to_nat n) as [|fuel] eqn:Hfuel; [lia|].
  cbn [retry_loop]. replace (0 <? n) with true by (symmetry; now apply Z.ltb_lt).
  rewrite retry_step_unfold. unfold next_cursor. cbn [length Nat.leb].
  rewrite resnapshot_eq. cbn zeta. rewrite (Hsnap _ (Hens w3 H3)).
  cbn [nonempty fst snd]. split; [reflexivity|].
  transitivity (attempts_of (trace w3)); [|apply Hq3].
  transitivity (attempts_of (trace (_ensure_global_proxies env w3))).
  - apply (snapshot_quiet (_ensure_global_proxies env w3)).
  - apply (ensure_quiet env w3).
Qed.

(** C1. The fetch operation returns a response only from an attempt whose
    status is outside the retryable set 301, 302, 401, 403, 407, 429, 500,
    502, 503, 504, every earlier attempt of the call having failed; in every
    other case it raises one of its two exhaustion errors. *)
Theorem requests_get_never_returns_retryable
    (env : Env) (url : string) (ct rt n : Z) (cb : bool) (w : World) :
  shuffle_ok env ->
  match fst (requests_get env url ct rt n cb w) with
  | Returned r =>
      ~ In (status_code r) RETRYABLE
      /\ exists earlier,
           attempts_of (trace (snd (requests_get env url ct rt n cb w)))
           = Responded r :: earlier ++ attempts_of (trace w)
           /\ forallb failed_attempt earlier = true
  | Raised e => e = NoProxiesAvailable \/ exists stats, e = FailedAfter n stats
  | OutOfFuel => False
  end.
Proof.
  intros Hs.
  destruct (requests_get_log env url ct rt n cb w Hs) as (during & Hd & He).
  destruct (fst (requests_get env url ct rt n cb w)) as [r|[|m st|]|];
    cbn [ends_as] in He.
  - destruct He as (rest & -> & Hf & Hr & _). split.
    + rewrite <- is_retryable_In. congruence.
    + exists rest. split; [exact Hd|exact Hf].
  - now left.
  - destruct He as (-> & _). right. now exists st.
  - destruct He.
  - destruct He.
Qed.

Lemma requests_get_never_returns_retryable_witness :
  shuffle_ok flaky_env
  /\ fst (requests_get flaky_env "https://www.wg-gesucht.de" 3 5 200 false
            fresh_single)
     = Returned (mkResponse 200 "ok")
  /\ ~ In 200 RETRYABLE.
Proof.
  assert (Hs : shuffle_ok flaky_env) by apply identity_shuffle_ok.
  pose proof (requests_get_never_returns_retryable flaky_env
                "https://www.wg-gesucht.de" 3 5 200 false fresh_single Hs) as H.
  assert (E : fst (requests_get flaky_env "https://www.wg-gesucht.de" 3 5 200
                     false fresh_single)
              = Returned (mkResponse 200 "ok")) by (vm_compute; reflexivity).
  rewrite E in H. split; [exact Hs|]. split; [exact E|exact (proj1 H)].
Defined.

(** C3. For any budget the fetch operation ends, and never with an index
    out of range. When it raises, it is either because the budget is used up
    with every attempt failed, and the error carries the stats of the pool as
    it is left, or because the pool gave no address right after the proxy
    file was read anew and had none, and then fewer attempts than the budget
    were made. A budget used up by failed attempts always ends in the first
    error; an empty pool with a file that has no address ends a call with a
    positive budget in the second, with no attempt made. *)
Theorem requests_get_raises_when_exhausted
    (env : Env) (url : string) (ct rt n : Z) (cb : bool) (w : World) :
  shuffle_ok env ->
  let res := fst (requests_get env url ct rt n cb w) in
  let w' := snd (requests_get env url ct rt n cb w) in
  (exists during,
      attempts_of (trace w') = during ++ attempts_of (trace w)
      /\ ends_as env n (Z.to_nat n) during res w'
      /\ (forallb failed_attempt during = true ->
          length during = Z.to_nat n ->
          exists stats, res = Raised (FailedAfter n stats)
                        /\ get_proxy_stats w' = (stats, w')))
  /\ (proxy_list w = [] ->
      (forall k, _get_proxies (read_file env k PROXY_FILE) = []) ->
      0 < n ->
      res = Raised NoProxiesAvailable
      /\ attempts_of (trace w') = attempts_of (trace w)).
Proof.
  intros Hs. cbn zeta. split.
  - destruct (requests_get_log env url ct rt n cb w Hs) as (during & Hd & He).
    exists during. split; [exact Hd|]. split; [exact He|].
    intros Hf Hlen.
    destruct (fst (requests_get env url ct rt n cb w)) as [r|[|m st|]|];
      cbn [ends_as] in He.
    + destruct He as (rest & -> & _ & Hr & _).
      cbn [forallb failed_attempt] in Hf. rewrite Hr in Hf. discriminate.
    + destruct He as (_ & Hlt & _). lia.
    + destruct He as (-> & _ & _ & Hst). now exists st.
    + destruct He.
    + destruct He.
  - intros Hl Hfile Hn. now apply requests_get_empty_pool.
Qed.

Lemma requests_get_raises_when_exhausted_witness :
  shuffle_ok failing_env
  /\ (exists stats,
        fst (requests_get failing_env "https://www.wg-gesucht.de" 3 5 3 false
               two_fresh)
        = Raised (FailedAfter 3 stats))
  /\ fst (requests_get failing_env "https://www.wg-gesucht.de" 3 5 3 false
            initial_world)
     = Raised NoProxiesAvailable.
Proof.
  assert (Hs : shuffle_ok failing_env) by apply identity_shuffle_ok.
  split; [exact Hs|]. split.
  - destruct (proj1 (requests_get_raises_when_exhausted failing_env
                       "https://www.wg-gesucht.de" 3 5 3 false two_fresh Hs))
      as (during & Hd & _ & Hlast).
    assert (E : during = [RequestFailed; RequestFailed; RequestFailed]).
    { change (attempts_of (trace two_fresh)) with (@nil Outcome) in Hd.
      rewrite app_nil_r in Hd. rewrite <- Hd. vm_compute. reflexivity. }
    destruct Hlast as (stats & Hres & _); [now rewrite E|now rewrite E|].
    now exists stats.
  - apply (proj2 (requests_get_raises_when_exhausted failing_env
                    "https://www.wg-gesucht.de" 3 5 3 false initial_world Hs));
      [reflexivity|reflexivity|reflexivity].
Defined.

(** C10. With a budget of zero or less the fetch operation raises the
    budget error at once: no request is sent, no success and no failure is
    recorded, and no failure count changes, whatever the URL and the pool. *)
Theorem requests_get_without_budget
    (env : Env) (url : string) (ct rt n : Z) (cb : bool) (w : World) :
  n <= 0 ->
  let res := fst (requests_get env url ct rt n cb w) in
  let w' := snd (requests_get env url ct rt n cb w) in
  (exists stats, res = Raised (FailedAfter n stats)
                 /\ get_proxy_stats w' = (stats, w'))
  /\ attempts_of (trace w') = attempts_of (trace w)
  /\ failures_of (trace w') = failures_of (trace w)
  /\ successes_of (trace w') = successes_of (trace w)
  /\ forall p, count_of (proxy_failure_counts w') p
               = count_of (proxy_failure_counts w) p.
Proof.
  intros Hn. cbn zeta. rewrite requests_get_eq. cbn zeta.
  replace (Z.to_nat n) with 0%nat by lia. cbn [retry_loop].
  replace (0 <? n) with false by (symmetry; apply Z.ltb_ge; lia).
  set (w1 := _ensure_global_proxies env w).
  set (w3 := advance (log _ (snd (_snapshot_local w1)))).
  rewrite (surjective_pairing (get_proxy_stats w3)). cbn [fst snd]. split.
  - eexists. split; [reflexivity|]. apply get_proxy_stats_again.
  - change (quiet w (snd (get_proxy_stats w3))).
    eapply quiet_trans; [apply (ensure_quiet env w)|].
    eapply quiet_trans; [apply (snapshot_quiet w1)|].
    eapply quiet_trans; [apply shuffle_quiet|apply stats_quiet].
Qed.

Lemma requests_get_without_budget_witness :
  0 <= 0
  /\ (exists stats,
        fst (requests_get failing_env "https://www.wg-gesucht.de" 3 5 0 false
               both_soft)
        = Raised (FailedAfter 0 stats))
  /\ attempts_of
       (trace (snd (requests_get failing_env "https://www.wg-gesucht.de" 3 5 0
                      false both_soft)))
     = [].
Proof.
  assert (H0 : 0 <= 0) by lia.
  destruct (requests_get_without_budget failing_env
              "https://www.wg-gesucht.de" 3 5 0 false both_soft H0)
    as ((stats & Hres & _) & Ha & _).
  split; [exact H0|]. split; [now exists stats|exact Ha].
Defined.

(** ** The fetch depends on the world only through its answers *)

Lemma ensure_ext env env' w :
  env_agree env env' ->
  _ensure_global_proxies env w = _ensure_global_proxies env' w.
Proof.
  intros (Hr & _ & _). unfold _ensure_global_proxies. now rewrite Hr.
Qed.

Lemma retry_step_ext env env' url ct rt cb attempt i local w :
  env_agree env env' ->
  retry_step env url ct rt cb attempt i local w
  = retry_step env' url ct rt cb attempt i local w.
Proof.
  intros Ha. pose proof Ha as (_ & Hs & Hg).
  unfold retry_step, resnapshot.
  rewrite (ensure_ext env env' w Ha).
  destruct (length local <=? i)%nat.
  - destruct (_snapshot_local (_ensure_global_proxies env' w)) as [l w1].
    destruct (negb (nonempty l)); [reflexivity|].
    rewrite Hs. destruct (shuffle env' (tick w1) l !! 0%nat); [|reflexivity].
    now rewrite Hg.
  - destruct (local !! i); [|reflexivity]. now rewrite Hg.
Qed.

Lemma retry_loop_ext env env' url ct rt n cb fuel :
  env_agree env env' ->
  forall attempt i local w,
    retry_loop fuel env url ct rt n cb attempt i local w
    = retry_loop fuel env' url ct rt n cb attempt i local w.
Proof.
  intros Ha. induction fuel as [|fuel IH]; intros attempt i local w;
    [reflexivity|].
  cbn [retry_loop]. rewrite (retry_step_ext env env' _ _ _ _ _ _ _ _ Ha).
  destruct (attempt <? n); [|reflexivity].
  destruct (retry_step env' url ct rt cb attempt i local w); [apply IH|easy].
Qed.

Lemma requests_get_ext env env' url ct rt n cb w :
  env_agree env env' ->
  requests_get env url ct rt n cb w = requests_get env' url ct rt n cb w.
Proof.
  intros Ha. pose proof Ha as (_ & Hs & _). unfold requests_get.
  rewrite (ensure_ext env env' w Ha).
  destruct (_snapshot_local (_ensure_global_proxies env' w)) as [l w1].
  rewrite Hs. now apply retry_loop_ext.
Qed.

Lemma scripted_agree env first second :
  (forall k url proxy ct rt, session_get env k url proxy ct rt = RequestFailed) ->
  shuffle env 0 ["p1:8080"; "p2:8080"] = first ->
  shuffle env 5 ["p1:8080"; "p2:8080"] = second ->
  env_agree env (scripted env first second).
Proof.
  intros Hfail H0 H5. split; [reflexivity|]. split; [|exact Hfail].
  intros k l. cbn [scripted shuffle].
  destruct (List.list_eq_dec string_dec l ["p1:8080"; "p2:8080"]) as [->|];
    [|reflexivity].
  destruct k as [|[|[|[|[|[|k]]]]]]; congruence.
Qed.

(** ** The scenario of two failing proxies *)

(** Closes the goals of a scenario that is run on a closed world. *)
Ltac by_running :=
  repeat match goal with |- _ /\ _ => split end;
  match goal with
  | |- _ \/ _ =>
      first [ left; reflexivity | right; left; reflexivity | right; reflexivity ]
  | |- In _ _ =>
      first [ left; reflexivity | right; left; reflexivity ]
  | |- _ => vm_compute; reflexivity
  end.

(** C5. From the pool of the two addresses p1:8080 and p2:8080 with no
    failure on record, when every request fails and the budget is 3, the
    fetch operation, whatever the two shuffles give, makes exactly three
    attempts and raises the budget error; the three failures it records are
    one for each address, each setting its count to 1, and then a second one
    for one of them, setting its count to 2; that address is removed, and the
    pool is left with the other address alone. *)
Theorem two_failing_proxies_budget_three
    (env : Env) (url : string) (ct rt : Z) (cb : bool) (m : gmap string Z) :
  shuffle_ok env ->
  (forall k u p a b, session_get env k u p a b = RequestFailed) ->
  In m [∅; {[ "p1:8080" := 0 ]}; {[ "p2:8080" := 0 ]};
        <["p1:8080" := 0]> {[ "p2:8080" := 0 ]}] ->
  let w := mkWorld ["p1:8080"; "p2:8080"] m 0 [] in
  let res := fst (requests_get env url ct rt 3 cb w) in
  let w' := snd (requests_get env url ct rt 3 cb w) in
  exists a b c,
    res = Raised (FailedAfter 3 (fst (get_proxy_stats w')))
    /\ attempts_of (trace w') = [RequestFailed; RequestFailed; RequestFailed]
    /\ rev (failures_of (trace w')) = [(a, 1); (b, 1); (c, 2)]
    /\ ([a; b] = ["p1:8080"; "p2:8080"] \/ [a; b] = ["p2:8080"; "p1:8080"])
    /\ In c ["p1:8080"; "p2:8080"]
    /\ proxy_list w' = remove_first c ["p1:8080"; "p2:8080"]
    /\ length (proxy_list w') = 1%nat
    /\ total_proxies (fst (get_proxy_stats w')) = 1.
Proof.
  intros Hs Hfail Hm w res w'. subst res w'.
  destruct (Permutation_length_2_inv (Hs 0%nat ["p1:8080"; "p2:8080"]))
    as [E0|E0];
  destruct (Permutation_length_2_inv (Hs 5%nat ["p1:8080"; "p2:8080"]))
    as [E5|E5];
  rewrite (requests_get_ext env _ url ct rt 3 cb w
             (scripted_agree env _ _ Hfail E0 E5));
  [ exists "p1:8080", "p2:8080", "p1:8080"
  | exists "p1:8080", "p2:8080", "p2:8080"
  | exists "p2:8080", "p1:8080", "p1:8080"
  | exists "p2:8080", "p1:8080", "p2:8080" ];
  subst w; destruct Hm as [<-|[<-|[<-|[<-|[]]]]]; destruct cb; by_running.
Qed.

Lemma two_failing_proxies_budget_three_witness :
  shuffle_ok failing_env
  /\ fst (requests_get failing_env "https://www.wg-gesucht.de" 3 5 3 false
            two_fresh)
     = Raised (FailedAfter 3
                 (fst (get_proxy_stats
                         (snd (requests_get failing_env
                                 "https://www.wg-gesucht.de" 3 5 3 false
                                 two_fresh)))))
  /\ length (proxy_list
               (snd (requests_get failing_env "https://www.wg-gesucht.de" 3 5 3
                       false two_fresh))) = 1%nat.
Proof.
  assert (Hs : shuffle_ok failing_env) by apply identity_shuffle_ok.
  destruct (two_failing_proxies_budget_three failing_env
              "https://www.wg-gesucht.de" 3 5 false ∅ Hs)
    as (a & b & c & Hres & _ & _ & _ & _ & _ & Hlen & _);
    [reflexivity|now left|].
  split; [exact Hs|]. split; [exact Hres|exact Hlen].
Defined.

(** * Further properties of the code *)

(** ** Trimming *)

Module StripFacts.
Import Text.

Lemma rstrip_cons_fixed c r : rstrip (String c r) = String c r -> rstrip r = r.
Proof.
  cbn [rstrip]. destruct (rstrip r) as [|d r'] eqn:Hr.
  - destruct (isspace c); [discriminate|]. now intros [= <-].
  - now intros [= <-].
Qed.

Lemma rstrip_rstrip s : rstrip (rstrip s) = rstrip s.
Proof.
  induction s as [|c r IH]; [reflexivity|]. cbn [rstrip].
  destruct (rstrip r) as [|d r'] eqn:Hr.
  - destruct (isspace c) eqn:Hc; [reflexivity|]. cbn [rstrip]. now rewrite Hc.
  - change (rstrip (String c (String d r'))) with
      (match rstrip (String d r') with
       | EmptyString => if isspace c then EmptyString else String c EmptyString
       | r0 => String c r0
       end).
    now rewrite IH.
Qed.

Lemma lstrip_keeps_rstripped t : rstrip t = t -> rstrip (lstrip t) = lstrip t.
Proof.
  induction t as [|c r IH]; [reflexivity|]. intros H. cbn [lstrip].
  destruct (isspace c); [|exact H]. apply IH. now apply rstrip_cons_fixed in H.
Qed.

Lemma lstrip_lstrip s : lstrip (lstrip s) = lstrip s.
Proof.
  induction s as [|c r IH]; [reflexivity|]. cbn [lstrip].
  destruct (isspace c) eqn:Hc; [exact IH|]. cbn [lstrip]. now rewrite Hc.
Qed.

Lemma strip_strip s : strip (strip s) = strip s.
Proof.
  unfold strip.
  rewrite (lstrip_keeps_rstripped (rstrip s) (rstrip_rstrip s)).
  apply lstrip_lstrip.
Qed.

End StripFacts.

(** ** What the loader lets through *)

Lemma get_proxies_In content p :
  In p (_get_proxies content) ->
  exists text ln, content = Some text /\ In ln (Text.splitlines text)
                  /\ p = Text.strip ln
                  /\ Text.truthy (Text.strip ln) = true
                  /\ Text.contains ":" ln = true.
Proof.
  destruct content as [text|]; [|intros []]. cbn [_get_proxies].
  intros H. apply in_map_iff in H as (ln & <- & H).
  apply List.filter_In in H as (Hin & Hq). apply andb_true_iff in Hq as (Ht & Hc).
  now exists text, ln.
Qed.

Lemma get_proxies_are_wellformed content p :
  In p (_get_proxies content) -> wellformed p.
Proof.
  intros H. apply get_proxies_In in H as (text & ln & _ & _ & -> & Ht & Hc).
  split; [now apply truthy_nonempty|]. split.
  - apply StripFacts.strip_strip.
  - now rewrite TextFacts.contains_strip.
Qed.

(** X1. Every address the loader returns is non-empty, has no whitespace
    around it and contains a colon, whatever the file holds; and the loader
    returns no more addresses than the file has lines. *)
Theorem get_proxies_gives_wellformed_addresses (content : option string) :
  (forall p, In p (_get_proxies content) ->
             p <> "" /\ Text.strip p = p /\ Text.contains ":" p = true)
  /\ (forall text, content = Some text ->
        (length (_get_proxies content) <= length (Text.splitlines text))%nat).
Proof.
  split.
  - intros p H. exact (get_proxies_are_wellformed content p H).
  - intros text ->. cbn [_get_proxies]. rewrite length_map.
    apply List.filter_length_le.
Qed.

Lemma get_proxies_gives_wellformed_addresses_witness :
  In "1.2.3.4:8080" (_get_proxies (Some scenario_file))
  /\ Text.strip "1.2.3.4:8080" = "1.2.3.4:8080"
  /\ (length (_get_proxies (Some scenario_file)) <= 3)%nat.
Proof.
  assert (H : In "1.2.3.4:8080" (_get_proxies (Some scenario_file)))
    by (now left).
  destruct (get_proxies_gives_wellformed_addresses (Some scenario_file))
    as (Hw & Hlen).
  split; [exact H|]. split; [exact (proj1 (proj2 (Hw _ H)))|].
  exact (Hlen scenario_file eq_refl).
Defined.

(** ** Invariants of the world along the operations *)

(** A property of worlds that the primitive steps keep is kept by the loop
    body, the loop, a whole fetch and any sequence of operations. *)
Section WorldInvariant.

Variable env : Env.
Variable Q : World -> Prop.

Hypothesis Q_log : forall e w, Q w -> Q (log e w).
Hypothesis Q_advance : forall w, Q w -> Q (advance w).
Hypothesis Q_failure : forall p w, Q w -> Q (_handle_proxy_failure p w).
Hypothesis Q_success : forall p w, Q w -> Q (_handle_proxy_success p w).
Hypothesis Q_ensure : forall w, Q w -> Q (_ensure_global_proxies env w).
Hypothesis Q_snapshot : forall w, Q w -> Q (snd (_snapshot_local w)).
Hypothesis Q_stats : forall w, Q w -> Q (snd (get_proxy_stats w)).

Lemma next_cursor_kept i local w :
  Q w -> Q (snd (next_cursor env i local w)).
Proof.
  intros H. unfold next_cursor. destruct (length local <=? i)%nat; [|exact H].
  rewrite resnapshot_eq. cbn zeta.
  destruct (nonempty _); cbn [snd]; auto.
Qed.

Lemma try_proxy_kept url ct rt cb attempt i local proxy w :
  Q w ->
  match try_proxy env url ct rt cb attempt i local proxy w with
  | Continue _ _ _ w' => Q w'
  | Stop _ w' => Q w'
  end.
Proof.
  intros H. unfold try_proxy, sleep_jitter.
  set (w1 := if cb then log (EvCallback (attempt + 1) proxy) w else w).
  assert (H1 : Q w1) by (subst w1; destruct cb; auto).
  destruct (session_get env (tick w1) url proxy ct rt) as [r|];
    [destruct (_is_retryable_status (status_code r))|]; auto 10.
Qed.

Lemma retry_step_kept url ct rt cb attempt i local w :
  Q w ->
  match retry_step env url ct rt cb attempt i local w with
  | Continue _ _ _ w' => Q w'
  | Stop _ w' => Q w'
  end.
Proof.
  intros H. rewrite retry_step_unfold.
  pose proof (next_cursor_kept i local w H) as Hc.
  destruct (next_cursor env i local w) as [[[l j]|] w1]; cbn [snd] in Hc;
    [|exact Hc].
  destruct (l !! j) as [proxy|]; [|exact Hc]. now apply try_proxy_kept.
Qed.

Lemma retry_loop_kept url ct rt n cb fuel :
  forall attempt i local w,
    Q w -> Q (snd (retry_loop fuel env url ct rt n cb attempt i local w)).
Proof.
  induction fuel as [|fuel IH]; intros attempt i local w H;
    cbn [retry_loop]; destruct (attempt <? n);
    try (rewrite (surjective_pairing (get_proxy_stats w)); now apply Q_stats).
  - exact H.
  - pose proof (retry_step_kept url ct rt cb attempt i local w H) as Hs.
    destruct (retry_step env url ct rt cb attempt i local w); [|exact Hs].
    now apply IH.
Qed.

Lemma requests_get_kept url ct rt n cb w :
  Q w -> Q (snd (requests_get env url ct rt n cb w)).
Proof.
  intros H. rewrite requests_get_eq. cbn zeta. apply retry_loop_kept. auto.
Qed.

Lemma run_ops_kept ops : forall w, Q w -> Q (run_ops env ops w).
Proof.
  unfold run_ops. induction ops as [|op ops IH]; intros w H; [exact H|].
  cbn [fold_left]. apply IH. destruct op; cbn [run_op]; auto.
  now apply requests_get_kept.
Qed.

End WorldInvariant.

(** ** What recording a failure or a success leaves alone *)

Lemma remove_first_In p q l : In q (remove_first p l) -> In q l.
Proof.
  induction l as [|x r IH]; [easy|]. cbn.
  destruct (String.eqb x p); [now right|].
  intros [->|H]; [now left|right; auto].
Qed.

Lemma remove_first_other p q l : q <> p -> In q l -> In q (remove_first p l).
Proof.
  intros Hne. induction l as [|x r IH]; [easy|]. cbn.
  destruct (String.eqb_spec x p) as [->|_].
  - intros [->|H]; [congruence|assumption].
  - intros [->|H]; [now left|right; auto].
Qed.

Lemma remove_first_length p l :
  (length (remove_first p l) <= length l <= S (length (remove_first p l)))%nat.
Proof.
  induction l as [|x r IH]; [cbn; lia|]. cbn.
  destruct (String.eqb x p); cbn; lia.
Qed.

Lemma handle_failure_list_In p q w :
  In q (proxy_list (_handle_proxy_failure p w)) -> In q (proxy_list w).
Proof.
  destruct p as [p|]; [|easy]. destruct (Text.truthy p) eqn:Hp.
  - rewrite (handle_failure_eq p w Hp). cbn zeta.
    destruct (_ >=? _); cbn [proxy_list]; [apply remove_first_In|easy].
  - unfold _handle_proxy_failure. now rewrite Hp.
Qed.

Lemma handle_success_list p w :
  proxy_list (_handle_proxy_success p w) = proxy_list w.
Proof.
  destruct p as [p|]; [|easy]. unfold _handle_proxy_success.
  now destruct (Text.truthy p).
Qed.

(** X2. Recording a failure for one address changes nothing for another:
    its failure count and its presence in the address list stay as they
    were; and the list loses at most one entry and gains none. The same
    holds for a recorded success, which leaves the list untouched. *)
Theorem handle_failure_leaves_others (p : option string) (q : string)
    (w : World) :
  p <> Some q ->
  let w' := _handle_proxy_failure p w in
  let w'' := _handle_proxy_success p w in
  count_of (proxy_failure_counts w') q = count_of (proxy_failure_counts w) q
  /\ (In q (proxy_list w') <-> In q (proxy_list w))
  /\ (length (proxy_list w') <= length (proxy_list w)
      <= S (length (proxy_list w')))%nat
  /\ count_of (proxy_failure_counts w'') q
     = count_of (proxy_failure_counts w) q
  /\ proxy_list w'' = proxy_list w.
Proof.
  intros Hne. cbn zeta.
  assert (Hs : count_of (proxy_failure_counts (_handle_proxy_success p w)) q
               = count_of (proxy_failure_counts w) q).
  { destruct p as [p|]; [|reflexivity]. unfold _handle_proxy_success.
    destruct (Text.truthy p); [|reflexivity]. cbn. unfold count_of.
    rewrite lookup_insert_ne by congruence. reflexivity. }
  enough (HF : count_of (proxy_failure_counts (_handle_proxy_failure p w)) q
               = count_of (proxy_failure_counts w) q
               /\ (In q (proxy_list (_handle_proxy_failure p w))
                   <-> In q (proxy_list w))
               /\ (length (proxy_list (_handle_proxy_failure p w))
                   <= length (proxy_list w)
                   <= S (length (proxy_list (_handle_proxy_failure p w))))%nat).
  { destruct HF as (H1 & H2 & H3). split; [exact H1|]. split; [exact H2|].
    split; [exact H3|]. split; [exact Hs|apply handle_success_list]. }
  destruct p as [p|]; [|cbn; split; [reflexivity|split; [tauto|lia]]].
  assert (Hpq : p <> q) by congruence.
  destruct (Text.truthy p) eqn:Hp.
  - rewrite (handle_failure_eq p w Hp). cbn zeta.
    pose proof (remove_first_length p (proxy_list w)) as Hlen.
    destruct (_ >=? _); cbn [proxy_list proxy_failure_counts]; unfold count_of.
    + rewrite lookup_delete_ne by exact Hpq. split; [reflexivity|]. split.
      * split; [apply remove_first_In|apply remove_first_other; congruence].
      * exact Hlen.
    + rewrite lookup_insert_ne by exact Hpq. split; [reflexivity|].
      split; [tauto|lia].
  - unfold _handle_proxy_failure. rewrite Hp. cbn.
    split; [reflexivity|]. split; [tauto|lia].
Qed.

Lemma handle_failure_leaves_others_witness :
  Some "p1:8080" <> Some "p2:8080"
  /\ count_of (proxy_failure_counts
                 (_handle_proxy_failure (Some "p1:8080") both_soft)) "p2:8080"
     = 1
  /\ In "p2:8080" (proxy_list (_handle_proxy_failure (Some "p1:8080") both_soft)).
Proof.
  assert (H : Some "p1:8080" <> Some "p2:8080") by discriminate.
  destruct (handle_failure_leaves_others (Some "p1:8080") "p2:8080" both_soft H)
    as (Hc & Hin & _).
  split; [exact H|]. split; [rewrite Hc; reflexivity|].
  apply Hin. right. now left.
Defined.

(** ** Where the addresses of the pool come from *)

Lemma ensure_list_In env w p :
  In p (proxy_list (_ensure_global_proxies env w)) ->
  In p (proxy_list w)
  \/ In p (_get_proxies (read_file env (tick w) PROXY_FILE)).
Proof.
  unfold _ensure_global_proxies. destruct (nonempty (proxy_list w)); [now left|].
  destruct (_ && _); cbn [proxy_list set_proxy_list advance log]; tauto.
Qed.

Lemma stats_list w : proxy_list (snd (get_proxy_stats w)) = proxy_list w.
Proof. now rewrite get_proxy_stats_eq. Qed.

(** A property of addresses that the loader guarantees is guaranteed for the
    address list as long as nothing else filled it. *)
Lemma list_property_kept env (P : string -> Prop) ops w :
  (forall k p, In p (_get_proxies (read_file env k PROXY_FILE)) -> P p) ->
  (forall p, In p (proxy_list w) -> P p) ->
  forall p, In p (proxy_list (run_ops env ops w)) -> P p.
Proof.
  intros Hload.
  apply (run_ops_kept env (fun v => forall p, In p (proxy_list v) -> P p)).
  - intros e v H. exact H.
  - intros v H. exact H.
  - intros q v H p Hp. apply H. now apply handle_failure_list_In in Hp.
  - intros q v H p. rewrite handle_success_list. apply H.
  - intros v H p Hp. apply ensure_list_In in Hp as [Hp|Hp]; eauto.
  - intros v H p. rewrite snapshot_list. apply H.
  - intros v H p. rewrite stats_list. apply H.
Qed.

(** X3. Starting from the empty state of process start, whatever the proxy
    file holds and whatever operations and fetches are run, every address of
    the address list is one the loader let through: non-empty, without
    whitespace around it and with a colon. *)
Theorem pool_holds_wellformed_addresses
    (env : Env) (ops : list PoolOp) (p : string) :
  In p (proxy_list (run_ops env ops initial_world)) ->
  p <> "" /\ Text.strip p = p /\ Text.contains ":" p = true.
Proof.
  apply (list_property_kept env wellformed ops initial_world).
  - intros k q. apply get_proxies_are_wellformed.
  - intros q [].
Qed.

Lemma pool_holds_wellformed_addresses_witness :
  In "1.2.3.4:8080" (proxy_list (run_ops seeded_env [LazySeed] initial_world))
  /\ Text.contains ":" "1.2.3.4:8080" = true.
Proof.
  assert (H : In "1.2.3.4:8080"
                (proxy_list (run_ops seeded_env [LazySeed] initial_world)))
    by (now left).
  split; [exact H|].
  exact (proj2 (proj2 (pool_holds_wellformed_addresses seeded_env [LazySeed]
                         "1.2.3.4:8080" H))).
Defined.

(** ** Soft exclusion and the effect of a success in between *)

Lemma usable_In w p :
  In p (usable w) <->
  In p (proxy_list w)
  /\ count_of (proxy_failure_counts w) p < SOFT_EXCLUDE_AFTER.
Proof.
  unfold usable. rewrite List.filter_In, Z.ltb_lt. reflexivity.
Qed.

Lemma snapshot_usable w :
  usable w <> [] -> fst (_snapshot_local w) = usable w.
Proof.
  intros H. rewrite snapshot_fst. apply nonempty_true in H. now rewrite H.
Qed.

(** X4. A first failure recorded for a listed address that had none keeps
    the address in the list but leaves it out of the usable snapshot as long
    as another listed address is below the soft threshold, and that other
    address is in the snapshot. *)
Theorem handle_failure_once_soft_excludes (p q : string) (w : World) :
  p <> "" -> q <> p ->
  In p (proxy_list w) -> In q (proxy_list w) ->
  count_of (proxy_failure_counts w) p = 0 ->
  count_of (proxy_failure_counts w) q < SOFT_EXCLUDE_AFTER ->
  let w' := _handle_proxy_failure (Some p) w in
  proxy_list w' = proxy_list w
  /\ proxy_failure_counts w' !! p = Some 1
  /\ ~ In p (fst (_snapshot_local w'))
  /\ In q (fst (_snapshot_local w')).
Proof.
  intros Hp Hqp Hinp Hinq Hcp Hcq. apply truthy_nonempty in Hp. cbn zeta.
  rewrite (handle_failure_eq p w Hp). cbn zeta. rewrite Hcp.
  change (0 + 1 >=? PROXY_REMOVE_AFTER) with false. cbn iota.
  set (w' := mkWorld _ _ _ _).
  assert (Hq' : In q (usable w')).
  { apply usable_In. subst w'. cbn [proxy_list proxy_failure_counts].
    split; [exact Hinq|]. unfold count_of.
    rewrite lookup_insert_ne by congruence. exact Hcq. }
  assert (Hne : usable w' <> []) by (intros E; now rewrite E in Hq').
  rewrite (snapshot_usable w' Hne).
  split; [reflexivity|]. split; [apply lookup_insert_eq|].
  split; [|exact Hq'].
  intros H. apply usable_In in H as (_ & H). subst w'.
  cbn [proxy_failure_counts] in H. unfold count_of in H.
  rewrite lookup_insert_eq in H. cbn in H. unfold SOFT_EXCLUDE_AFTER in H. lia.
Qed.

Lemma handle_failure_once_soft_excludes_witness :
  "p1:8080" <> "" /\ "p2:8080" <> "p1:8080"
  /\ fst (_snapshot_local (_handle_proxy_failure (Some "p1:8080") two_fresh))
     = ["p2:8080"]
  /\ ~ In "p1:8080"
         (fst (_snapshot_local
                 (_handle_proxy_failure (Some "p1:8080") two_fresh))).
Proof.
  assert (H1 : "p1:8080" <> "") by discriminate.
  assert (H2 : "p2:8080" <> "p1:8080") by discriminate.
  destruct (handle_failure_once_soft_excludes "p1:8080" "p2:8080" two_fresh
              H1 H2)
    as (_ & _ & Hout & _);
    [now left|right; now left|reflexivity|reflexivity|].
  split; [exact H1|]. split; [exact H2|]. split; [reflexivity|exact Hout].
Defined.

(** X5. A success recorded between two failures starts the count again:
    whatever the count of an address was, after a success and then a failure
    it is 1 and the address list is what it was, so the address has not been
    removed. *)
Theorem handle_failure_after_success_counts_one (p : string) (w : World) :
  p <> "" ->
  let w' := _handle_proxy_failure (Some p) (_handle_proxy_success (Some p) w) in
  proxy_list w' = proxy_list w
  /\ proxy_failure_counts w' !! p = Some 1
  /\ failures_of (trace w') = (p, 1) :: failures_of (trace w).
Proof.
  intros Hp. apply truthy_nonempty in Hp. cbn zeta.
  rewrite (handle_success_eq p w Hp), (handle_failure_eq p _ Hp). cbn zeta.
  cbn [proxy_failure_counts proxy_list tick trace].
  assert (Hc : count_of (<[p:=0]> (proxy_failure_counts w)) p = 0).
  { unfold count_of. now rewrite lookup_insert_eq. }
  rewrite !Hc. change (0 + 1 >=? PROXY_REMOVE_AFTER) with false. cbn iota.
  cbn [proxy_failure_counts proxy_list trace failures_of].
  split; [reflexivity|]. split; [apply lookup_insert_eq|reflexivity].
Qed.

Lemma handle_failure_after_success_counts_one_witness :
  "p1:8080" <> ""
  /\ proxy_list (_handle_proxy_failure (Some "p1:8080")
                   (_handle_proxy_success (Some "p1:8080") both_soft))
     = proxy_list both_soft.
Proof.
  assert (H : "p1:8080" <> "") by discriminate.
  split; [exact H|].
  exact (proj1 (handle_failure_after_success_counts_one "p1:8080" both_soft H)).
Defined.

(** ** The usable snapshot, taken again *)

Lemma snapshot_again w :
  _snapshot_local (snd (_snapshot_local w))
  = (fst (_snapshot_local w), snd (_snapshot_local w)).
Proof.
  rewrite snapshot_snd. unfold _snapshot_local at 1.
  cbn [proxy_list proxy_failure_counts set_counts].
  rewrite select_below_again. rewrite snapshot_fst. reflexivity.
Qed.

Lemma snapshot_NoDup w :
  List.NoDup (proxy_list w) -> List.NoDup (fst (_snapshot_local w)).
Proof.
  rewrite snapshot_fst. destruct (nonempty (usable w)); [|easy].
  unfold usable. apply List.NoDup_filter.
Qed.

Lemma snapshot_nil w : fst (_snapshot_local w) = [] <-> proxy_list w = [].
Proof.
  rewrite snapshot_fst. destruct (usable w) as [|x l] eqn:Hu; cbn [nonempty].
  - reflexivity.
  - split; [discriminate|]. intros Hl. unfold usable in Hu.
    rewrite Hl in Hu. discriminate.
Qed.

(** X6. The usable snapshot holds only addresses of the address list, none
    twice if the list has none twice; it is empty exactly when the list is
    empty; it changes neither the list nor any failure count read; and a
    second snapshot right after gives the same addresses and changes nothing
    more. *)
Theorem snapshot_local_is_stable (w : World) :
  let local := fst (_snapshot_local w) in
  let w' := snd (_snapshot_local w) in
  (forall p, In p local -> In p (proxy_list w))
  /\ (List.NoDup (proxy_list w) -> List.NoDup local)
  /\ (local = [] <-> proxy_list w = [])
  /\ proxy_list w' = proxy_list w
  /\ (forall p, count_of (proxy_failure_counts w') p
                = count_of (proxy_failure_counts w) p)
  /\ _snapshot_local w' = (local, w').
Proof.
  cbn zeta. split; [intros p; apply snapshot_In|].
  split; [apply snapshot_NoDup|]. split; [apply snapshot_nil|].
  split; [apply snapshot_list|]. split; [apply (snapshot_quiet w)|].
  apply snapshot_again.
Qed.

(** ** The healthy count *)

Lemma filter_all {A} (f : A -> bool) l :
  (forall x, In x l -> f x = true) -> List.filter f l = l.
Proof.
  induction l as [|x r IH]; [reflexivity|]. intros H. cbn.
  rewrite (H x) by now left. f_equal. apply IH. intros y Hy. apply H. now right.
Qed.

Lemma bounded_count_of w p :
  counts_bounded w -> count_of (proxy_failure_counts w) p < PROXY_REMOVE_AFTER.
Proof.
  intros Hb. unfold count_of.
  destruct (proxy_failure_counts w !! p) as [c|] eqn:Hp; [exact (Hb p c Hp)|].
  reflexivity.
Qed.

(** X7. The stats never count more healthy proxies than proxies; and in
    every state reached from process start by operations and fetches the two
    counts are equal, both being the length of the address list: a listed
    proxy is never at the removal threshold. *)
Theorem get_proxy_stats_healthy_is_total
    (env : Env) (ops : list PoolOp) (w : World) :
  (0 <= healthy_proxies (fst (get_proxy_stats w))
   <= total_proxies (fst (get_proxy_stats w)))
  /\ (let v := run_ops env ops initial_world in
      healthy_proxies (fst (get_proxy_stats v))
      = total_proxies (fst (get_proxy_stats v))
      /\ total_proxies (fst (get_proxy_stats v))
         = Z.of_nat (length (proxy_list v))).
Proof.
  split.
  - rewrite get_proxy_stats_eq. cbn. unfold healthy.
    pose proof (List.filter_length_le
                  (fun p => count_of (proxy_failure_counts w) p
                            <? PROXY_REMOVE_AFTER) (proxy_list w)).
    lia.
  - cbn zeta. rewrite get_proxy_stats_eq. cbn. split; [|reflexivity].
    unfold healthy. rewrite filter_all; [reflexivity|].
    intros p _. apply Z.ltb_lt. apply bounded_count_of.
    apply run_ops_bounded. intros q c. cbn. now rewrite lookup_empty.
Qed.

Lemma snapshot_local_is_stable_witness :
  List.NoDup (proxy_list two_fresh)
  /\ List.NoDup (fst (_snapshot_local two_fresh))
  /\ (forall p, In p (fst (_snapshot_local two_fresh)) ->
                In p (proxy_list two_fresh)).
Proof.
  assert (H : List.NoDup (proxy_list two_fresh)).
  { repeat constructor; cbn; intuition discriminate. }
  destruct (snapshot_local_is_stable two_fresh) as (Hin & Hnd & _).
  split; [exact H|]. split; [exact (Hnd H)|exact Hin].
Defined.

(** ** The ledger of a fetch: requests, failures and successes *)

Lemma handle_failure_trace_cases p w :
  (Text.truthy p = true
   /\ exists c, trace (_handle_proxy_failure (Some p) w)
                = EvFailure p c :: trace w)
  \/ (Text.truthy p = false /\ _handle_proxy_failure (Some p) w = w).
Proof.
  destruct (Text.truthy p) eqn:Hp.
  - left. split; [reflexivity|]. rewrite (handle_failure_eq p w Hp). cbn zeta.
    destruct (_ >=? _); eexists; reflexivity.
  - right. split; [reflexivity|]. unfold _handle_proxy_failure. now rewrite Hp.
Qed.

Lemma ensure_gets env w :
  gets_of (trace (_ensure_global_proxies env w)) = gets_of (trace w).
Proof. rewrite ensure_trace. now destruct (nonempty (proxy_list w)). Qed.

Lemma next_cursor_quiet env i local w :
  quiet w (snd (next_cursor env i local w))
  /\ gets_of (trace (snd (next_cursor env i local w))) = gets_of (trace w).
Proof.
  unfold next_cursor.
  destruct (length local <=? i)%nat; [|split; [now repeat split|reflexivity]].
  rewrite resnapshot_eq. cbn zeta.
  set (w1 := _ensure_global_proxies env w).
  assert (Hq : quiet w (snd (_snapshot_local w1)))
    by exact (quiet_trans _ _ _ (ensure_quiet env w) (snapshot_quiet w1)).
  assert (Hg : gets_of (trace (snd (_snapshot_local w1))) = gets_of (trace w))
    by (rewrite snapshot_trace; apply ensure_gets).
  destruct (nonempty _); cbn [snd]; split; assumption.
Qed.

(** The proxy of an iteration comes from the local snapshot or, through a
    new snapshot, from the address list as lazy seeding leaves it. *)
Lemma next_cursor_from env i local w l j :
  shuffle_ok env ->
  fst (next_cursor env i local w) = Some (l, j) ->
  (l = local /\ j = i /\ (i < length local)%nat)
  \/ (j = 0%nat /\ l <> []
      /\ forall p, In p l -> In p (proxy_list (_ensure_global_proxies env w))).
Proof.
  intros Hs. unfold next_cursor.
  destruct (length local <=? i)%nat eqn:Hlen.
  - rewrite resnapshot_eq. cbn zeta.
    destruct (nonempty _) eqn:Hne; cbn [fst]; [|discriminate].
    intros [= <- <-]. right. split; [reflexivity|]. split.
    + intros Hnil. apply nonempty_true in Hne. apply Hne.
      apply Permutation_nil. rewrite <- Hnil. symmetry. apply Hs.
    + intros p Hp. apply snapshot_In.
      eapply Permutation_in; [symmetry; apply Hs|exact Hp].
  - cbn [fst]. intros [= <- <-]. left. apply Nat.leb_gt in Hlen. auto.
Qed.

(** One attempt in the ledger. *)
Lemma try_proxy_ledger env url ct rt cb attempt i local proxy w :
  match try_proxy env url ct rt cb attempt i local proxy w with
  | Continue a' i' l' w' =>
      a' = attempt + 1 /\ i' = S i /\ l' = local
      /\ gets_of (trace w') = (url, proxy) :: gets_of (trace w)
      /\ successes_of (trace w') = successes_of (trace w)
      /\ exists df, failures_of (trace w') = df ++ failures_of (trace w)
                    /\ (Text.truthy proxy = true ->
                        exists c, df = [(proxy, c)])
  | Stop res w' =>
      exists r, res = Returned r
      /\ gets_of (trace w') = (url, proxy) :: gets_of (trace w)
      /\ failures_of (trace w') = failures_of (trace w)
      /\ exists ds, successes_of (trace w') = ds ++ successes_of (trace w)
                    /\ (Text.truthy proxy = true ->
                        ds = [proxy]
                        /\ proxy_failure_counts w' !! proxy = Some 0)
  end.
Proof.
  unfold try_proxy.
  set (w1 := if cb then log (EvCallback (attempt + 1) proxy) w else w).
  assert (H1 : gets_of (trace w1) = gets_of (trace w)
               /\ successes_of (trace w1) = successes_of (trace w)
               /\ failures_of (trace w1) = failures_of (trace w))
    by (subst w1; now destruct cb).
  destruct H1 as (Hg & Hsu & Hf).
  set (o := session_get env (tick w1) url proxy ct rt).
  set (w2 := advance (log (EvGet url proxy o) w1)).
  assert (Hfail :
    gets_of (trace (sleep_jitter (_handle_proxy_failure (Some proxy) w2)))
    = (url, proxy) :: gets_of (trace w)
    /\ successes_of (trace (sleep_jitter (_handle_proxy_failure (Some proxy) w2)))
       = successes_of (trace w)
    /\ exists df,
        failures_of (trace (sleep_jitter (_handle_proxy_failure (Some proxy) w2)))
        = df ++ failures_of (trace w)
        /\ (Text.truthy proxy = true -> exists c, df = [(proxy, c)])).
  { unfold sleep_jitter. cbn [trace advance log gets_of successes_of failures_of].
    destruct (handle_failure_trace_cases proxy w2) as [(Ht & c & Hc)|(Ht & Hc)];
      rewrite Hc; subst w2;
      cbn [trace advance log gets_of successes_of failures_of];
      rewrite Hg, Hsu, ?Hf.
    - split; [reflexivity|]. split; [reflexivity|]. exists [(proxy, c)].
      split; [reflexivity|]. intros _. now exists c.
    - split; [reflexivity|]. split; [reflexivity|]. exists [].
      split; [reflexivity|]. congruence. }
  destruct o as [r|]; [destruct (_is_retryable_status (status_code r))|].
  - split; [reflexivity|]. split; [reflexivity|]. split; [reflexivity|].
    exact Hfail.
  - exists r. split; [reflexivity|].
    destruct (Text.truthy proxy) eqn:Ht.
    + rewrite (handle_success_eq proxy w2 Ht). subst w2.
      cbn [trace advance log gets_of successes_of failures_of
           proxy_failure_counts].
      rewrite Hg, Hsu, Hf. split; [reflexivity|]. split; [reflexivity|].
      exists [proxy]. split; [reflexivity|].
      intros _. split; [reflexivity|apply lookup_insert_eq].
    + unfold _handle_proxy_success. rewrite Ht. subst w2.
      cbn [negb trace advance log gets_of successes_of failures_of].
      rewrite Hg, Hf, Hsu. split; [reflexivity|]. split; [reflexivity|].
      exists []. split; [reflexivity|]. discriminate.
  - split; [reflexivity|]. split; [reflexivity|]. split; [reflexivity|].
    exact Hfail.
Qed.

Section Ledger.

Variable env : Env.
Variable K : string -> Prop.
Variables (url : string) (ct rt n : Z) (cb : bool).

Hypothesis Hs : shuffle_ok env.
Hypothesis Hload :
  forall k p, In p (_get_proxies (read_file env k PROXY_FILE)) -> K p.

Let listed (v : World) : Prop := forall p, In p (proxy_list v) -> K p.

Lemma ensure_listed v : listed v -> listed (_ensure_global_proxies env v).
Proof.
  intros H p Hp. apply ensure_list_In in Hp as [Hp|Hp]; [now apply H|].
  now apply Hload in Hp.
Qed.

Lemma next_cursor_listed i local v :
  listed v -> listed (snd (next_cursor env i local v)).
Proof.
  apply (next_cursor_kept env listed).
  - intros e u H. exact H.
  - intros u H. exact H.
  - apply ensure_listed.
  - intros u H p. rewrite snapshot_list. apply H.
Qed.

Lemma try_proxy_listed attempt i local proxy v :
  listed v ->
  match try_proxy env url ct rt cb attempt i local proxy v with
  | Continue _ _ _ v' => listed v'
  | Stop _ v' => listed v'
  end.
Proof.
  apply (try_proxy_kept env listed).
  - intros e u H. exact H.
  - intros u H. exact H.
  - intros q u H p Hp. apply H. now apply handle_failure_list_In in Hp.
  - intros q u H p. rewrite handle_success_list. apply H.
Qed.

Lemma ledger_nothing w w' res :
  quiet w w' -> gets_of (trace w') = gets_of (trace w) ->
  match res with Returned _ => False | _ => True end ->
  ledger K url w w' res.
Proof.
  intros (_ & Hf & Hsu & _) Hg Hres. exists [], [], [].
  split; [exact Hg|]. split; [exact Hf|]. split; [exact Hsu|].
  split; [intros u p []|]. intros _. split; [reflexivity|].
  now destruct res.
Qed.

Lemma retry_loop_ledger fuel :
  forall attempt i local w,
    (forall p, In p local -> K p) -> listed w ->
    ledger K url w
      (snd (retry_loop fuel env url ct rt n cb attempt i local w))
      (fst (retry_loop fuel env url ct rt n cb attempt i local w)).
Proof.
  induction fuel as [|fuel IH]; intros attempt i local w Hlocal Hlist;
    cbn [retry_loop]; destruct (attempt <? n);
    try (rewrite (surjective_pairing (get_proxy_stats w)); cbn [fst snd];
         apply ledger_nothing;
         [apply stats_quiet|now rewrite get_proxy_stats_eq|exact I]).
  - apply ledger_nothing; [now repeat split|reflexivity|exact I].
  - rewrite retry_step_unfold.
    pose proof (next_cursor_quiet env i local w) as (Hq & Hg).
    pose proof (next_cursor_from env i local w) as Hfrom.
    pose proof (next_cursor_listed i local w Hlist) as Hl1.
    destruct (next_cursor env i local w) as [[[l j]|] w1];
      cbn [fst snd] in *; [|now apply ledger_nothing].
    destruct (l !! j) as [proxy|] eqn:Hlj; cbn [fst snd];
      [|now apply ledger_nothing].
    assert (HKl : forall p, In p l -> K p).
    { destruct (Hfrom l j Hs eq_refl) as [(-> & _)|(_ & _ & Hin)];
        [exact Hlocal|].
      intros p Hp. exact (ensure_listed w Hlist p (Hin p Hp)). }
    assert (HKp : K proxy).
    { apply HKl. apply list_elem_of_In. now apply list_elem_of_lookup_2 in Hlj. }
    pose proof (try_proxy_ledger env url ct rt cb attempt j l proxy w1) as Ht.
    pose proof (try_proxy_listed attempt j l proxy w1 Hl1) as Hl2.
    destruct Hq as (_ & Hqf & Hqs & _).
    destruct (try_proxy env url ct rt cb attempt j l proxy w1)
      as [a j' l' w2|res w2].
    + destruct Ht as (_ & _ & -> & Hg2 & Hs2 & df1 & Hf2 & Hdf1).
      destruct (IH a j' l w2 HKl Hl2)
        as (dg & df & ds & Hdg & Hdf & Hds & Hall & Hacc).
      exists (dg ++ [(url, proxy)]), (df ++ df1), ds.
      split; [now rewrite Hdg, Hg2, Hg, <- app_assoc|].
      split; [now rewrite Hdf, Hf2, Hqf, <- app_assoc|].
      split; [now rewrite Hds, Hs2, Hqs|]. split.
      * intros u p Hin. apply in_app_or in Hin as [Hin|[[= <- <-]|[]]]; auto.
      * intros Hne. destruct (Hacc Hne) as (Hmap & Hres).
        split; [|exact Hres].
        destruct Hdf1 as (c & ->);
          [apply truthy_nonempty; now apply Hne|].
        rewrite !map_app, Hmap, <- app_assoc. reflexivity.
    + destruct Ht as (r & -> & Hg2 & Hf2 & ds1 & Hs2 & Hds1). cbn [fst snd].
      exists [(url, proxy)], [], ds1.
      split; [now rewrite Hg2, Hg|]. split; [now rewrite Hf2, Hqf|].
      split; [now rewrite Hs2, Hqs|]. split.
      * intros u p [[= <- <-]|[]]. auto.
      * intros Hne. destruct Hds1 as (-> & Hc);
          [apply truthy_nonempty; now apply Hne|].
        split; [reflexivity|]. now exists proxy.
Qed.

Lemma requests_get_ledger w :
  listed w ->
  ledger K url w (snd (requests_get env url ct rt n cb w))
    (fst (requests_get env url ct rt n cb w)).
Proof.
  intros Hlist. rewrite requests_get_eq. cbn zeta.
  set (w1 := _ensure_global_proxies env w).
  set (w2 := snd (_snapshot_local w1)).
  set (w3 := advance (log _ w2)).
  set (local := shuffle env _ _).
  assert (H1 : listed w1) by now apply ensure_listed.
  assert (H3 : listed w3).
  { intros p. subst w3 w2. cbn [proxy_list advance log].
    rewrite snapshot_list. apply H1. }
  assert (Hlocal : forall p, In p local -> K p).
  { intros p Hp. apply H1. apply snapshot_In.
    eapply Permutation_in; [symmetry; apply Hs|exact Hp]. }
  destruct (retry_loop_ledger (Z.to_nat n) 0 0%nat local w3 Hlocal H3)
    as (dg & df & ds & Hdg & Hdf & Hds & Hrest).
  assert (Hq : quiet w w3).
  { eapply quiet_trans; [apply (ensure_quiet env w)|].
    eapply quiet_trans; [apply (snapshot_quiet w1)|apply shuffle_quiet]. }
  assert (Hg : gets_of (trace w3) = gets_of (trace w)).
  { subst w3 w2. cbn [trace advance log gets_of]. rewrite snapshot_trace.
    apply ensure_gets. }
  destruct Hq as (_ & Hqf & Hqs & _).
  exists dg, df, ds. rewrite Hdg, Hdf, Hds, Hg, Hqf, Hqs.
  split; [reflexivity|]. split; [reflexivity|]. split; [reflexivity|].
  exact Hrest.
Qed.

End Ledger.

(** X8. Every request a fetch sends is for the URL it was called with, and
    goes through an address that was in the address list at the call or that
    the proxy file gives at some time: the fetch never makes up a proxy and
    never asks for another URL. *)
Theorem requests_get_uses_known_proxies
    (env : Env) (url : string) (ct rt n : Z) (cb : bool) (w : World) :
  shuffle_ok env ->
  exists during,
    gets_of (trace (snd (requests_get env url ct rt n cb w)))
    = during ++ gets_of (trace w)
    /\ forall u p, In (u, p) during -> u = url /\ known env w p.
Proof.
  intros Hs.
  destruct (requests_get_ledger env (known env w) url ct rt n cb Hs) with (w := w)
    as (dg & _ & _ & Hdg & _ & _ & Hall & _).
  - intros k p Hp. right. now exists k.
  - intros p Hp. now left.
  - now exists dg.
Qed.

Lemma requests_get_uses_known_proxies_witness :
  shuffle_ok flaky_env
  /\ exists during,
      gets_of (trace (snd (requests_get flaky_env "https://www.wg-gesucht.de"
                             3 5 200 false fresh_single)))
      = during ++ gets_of (trace fresh_single)
      /\ forall u p, In (u, p) during ->
                     u = "https://www.wg-gesucht.de"
                     /\ known flaky_env fresh_single p.
Proof.
  assert (Hs : shuffle_ok flaky_env) by apply identity_shuffle_ok.
  split; [exact Hs|].
  exact (requests_get_uses_known_proxies flaky_env
           "https://www.wg-gesucht.de" 3 5 200 false fresh_single Hs).
Defined.

(** X9. When no address of the list is empty, a fetch keeps its books: the
    proxies of its requests are, in order, the proxies it records as failed,
    followed by the one it records as succeeded if it returns a response;
    it records a success only then, exactly one, and that proxy's failure
    count is 0 when the fetch returns. *)
Theorem requests_get_records_every_attempt
    (env : Env) (url : string) (ct rt n : Z) (cb : bool) (w : World) :
  shuffle_ok env ->
  (forall p, In p (proxy_list w) -> p <> "") ->
  let res := fst (requests_get env url ct rt n cb w) in
  let w' := snd (requests_get env url ct rt n cb w) in
  exists requests failed succeeded,
    gets_of (trace w') = requests ++ gets_of (trace w)
    /\ failures_of (trace w') = failed ++ failures_of (trace w)
    /\ successes_of (trace w') = succeeded ++ successes_of (trace w)
    /\ map snd requests = succeeded ++ map fst failed
    /\ match res with
       | Returned _ =>
           exists p, succeeded = [p]
                     /\ proxy_failure_counts w' !! p = Some 0
       | _ => succeeded = []
       end.
Proof.
  intros Hs Hne. cbn zeta.
  destruct (requests_get_ledger env (fun p => p <> "") url ct rt n cb Hs)
    with (w := w) as (dg & df & ds & Hdg & Hdf & Hds & _ & Hacc).
  - intros k p Hp. exact (proj1 (get_proxies_are_wellformed _ p Hp)).
  - exact Hne.
  - exists dg, df, ds. destruct Hacc as (Hmap & Hres); [auto|].
    now repeat (split; [assumption|]).
Qed.

Lemma requests_get_records_every_attempt_witness :
  shuffle_ok flaky_env
  /\ (forall p, In p (proxy_list fresh_single) -> p <> "")
  /\ exists requests failed succeeded,
      gets_of (trace (snd (requests_get flaky_env "https://www.wg-gesucht.de"
                             3 5 200 false fresh_single)))
      = requests ++ gets_of (trace fresh_single)
      /\ failures_of (trace (snd (requests_get flaky_env
                                    "https://www.wg-gesucht.de" 3 5 200 false
                                    fresh_single)))
         = failed ++ failures_of (trace fresh_single)
      /\ successes_of (trace (snd (requests_get flaky_env
                                     "https://www.wg-gesucht.de" 3 5 200 false
                                     fresh_single)))
         = succeeded ++ successes_of (trace fresh_single)
      /\ map snd requests = succeeded ++ map fst failed
      /\ match fst (requests_get flaky_env "https://www.wg-gesucht.de" 3 5 200
                      false fresh_single) with
         | Returned _ =>
             exists p, succeeded = [p]
                       /\ proxy_failure_counts
                            (snd (requests_get flaky_env
                                    "https://www.wg-gesucht.de" 3 5 200 false
                                    fresh_single)) !! p = Some 0
         | _ => succeeded = []
         end.
Proof.
  assert (Hs : shuffle_ok flaky_env) by apply identity_shuffle_ok.
  assert (Hne : forall p, In p (proxy_list fresh_single) -> p <> "")
    by (intros p [<-|[]]; discriminate).
  split; [exact Hs|]. split; [exact Hne|].
  exact (requests_get_records_every_attempt flaky_env
           "https://www.wg-gesucht.de" 3 5 200 false fresh_single Hs Hne).
Defined.

(** ** A pool of failing proxies is used up chance by chance *)

Lemma credit_ext m m' l :
  (forall p, In p l -> count_of m' p = count_of m p) ->
  credit m' l = credit m l.
Proof.
  induction l as [|x r IH]; [reflexivity|]. intros H. cbn [credit].
  rewrite (H x) by now left. rewrite IH; [reflexivity|].
  intros p Hp. apply H. now right.
Qed.

Lemma count_of_insert_ne (m : gmap string Z) p q c :
  p <> q -> count_of (<[p:=c]> m) q = count_of m q.
Proof. intros H. unfold count_of. now rewrite lookup_insert_ne. Qed.

Lemma count_of_insert_eq (m : gmap string Z) p c :
  count_of (<[p:=c]> m) p = c.
Proof. unfold count_of. now rewrite lookup_insert_eq. Qed.

Lemma count_of_delete_ne (m : gmap string Z) p q :
  p <> q -> count_of (delete p m) q = count_of m q.
Proof. intros H. unfold count_of. now rewrite lookup_delete_ne. Qed.

Lemma credit_insert m l p c :
  List.NoDup l -> In p l ->
  credit (<[p:=c]> m) l = credit m l - c + count_of m p.
Proof.
  induction l as [|x r IH]; [easy|]. intros Hnd Hin.
  apply List.NoDup_cons_iff in Hnd as (Hx & Hnd). cbn [credit].
  destruct (string_dec x p) as [->|Hne].
  - rewrite (credit_ext m (<[p:=c]> m) r).
    + rewrite count_of_insert_eq. lia.
    + intros q Hq. apply count_of_insert_ne. congruence.
  - destruct Hin as [->|Hin]; [congruence|].
    rewrite (IH Hnd Hin), count_of_insert_ne by congruence. lia.
Qed.

Lemma credit_remove m l p :
  List.NoDup l -> In p l ->
  credit (delete p m) (remove_first p l)
  = credit m l - (PROXY_REMOVE_AFTER - count_of m p).
Proof.
  induction l as [|x r IH]; [easy|]. intros Hnd Hin.
  apply List.NoDup_cons_iff in Hnd as (Hx & Hnd). cbn [credit remove_first].
  destruct (String.eqb_spec x p) as [->|Hne].
  - rewrite (credit_ext m (delete p m) r); [lia|].
    intros q Hq. apply count_of_delete_ne. congruence.
  - destruct Hin as [->|Hin]; [congruence|]. cbn [credit].
    rewrite (IH Hnd Hin), count_of_delete_ne by congruence. lia.
Qed.

Lemma remove_first_NoDup p l : List.NoDup l -> List.NoDup (remove_first p l).
Proof.
  induction l as [|x r IH]; [easy|]. intros Hnd.
  apply List.NoDup_cons_iff in Hnd as (Hx & Hnd). cbn [remove_first].
  destruct (String.eqb x p); [exact Hnd|]. constructor; [|now apply IH].
  intros H. apply Hx. now apply remove_first_In in H.
Qed.

Lemma credit_lower m l :
  (forall p, In p l -> count_of m p < PROXY_REMOVE_AFTER) ->
  Z.of_nat (length l) <= credit m l.
Proof.
  induction l as [|x r IH]; [reflexivity|]. intros H. cbn [credit length].
  specialize (H x (or_introl eq_refl)) as Hx.
  assert (Z.of_nat (length r) <= credit m r)
    by (apply IH; intros p Hp; apply H; now right).
  lia.
Qed.

(** One recorded failure of a listed address takes one chance away. *)
Lemma handle_failure_chances p w :
  sound w -> In p (proxy_list w) ->
  let w' := _handle_proxy_failure (Some p) w in
  sound w' /\ chances w' = chances w - 1
  /\ (forall q, q <> p -> In q (proxy_list w) -> In q (proxy_list w')).
Proof.
  intros (Hnd & Hall) Hin. cbn zeta. destruct (Hall p Hin) as (Hp & Hc).
  apply truthy_nonempty in Hp. rewrite (handle_failure_eq p w Hp). cbn zeta.
  unfold chances, sound.
  destruct (_ >=? _) eqn:Hge; cbn [proxy_list proxy_failure_counts].
  - rewrite Z.geb_leb in Hge. apply Z.leb_le in Hge.
    split; [split|split].
    + now apply remove_first_NoDup.
    + intros q Hq. pose proof (remove_first_In _ _ _ Hq) as Hq'.
      split; [apply (Hall q Hq')|].
      destruct (string_dec p q) as [<-|Hne].
      * unfold count_of. rewrite lookup_delete_eq. reflexivity.
      * rewrite count_of_delete_ne by exact Hne. apply (Hall q Hq').
    + rewrite credit_remove by assumption. unfold PROXY_REMOVE_AFTER in *.
      clear - Hc Hge. lia.
    + intros q Hq. now apply remove_first_other.
  - rewrite Z.geb_leb in Hge. apply Z.leb_gt in Hge.
    split; [split|split].
    + exact Hnd.
    + intros q Hq. split; [apply (Hall q Hq)|].
      destruct (string_dec p q) as [<-|Hne].
      * rewrite count_of_insert_eq. exact Hge.
      * rewrite count_of_insert_ne by exact Hne. apply (Hall q Hq).
    + rewrite credit_insert by assumption. clear. lia.
    + auto.
Qed.

Lemma sound_same w w' :
  proxy_list w' = proxy_list w ->
  (forall p, count_of (proxy_failure_counts w') p
             = count_of (proxy_failure_counts w) p) ->
  sound w -> sound w' /\ chances w' = chances w.
Proof.
  intros Hl Hc (Hnd & Hall). unfold sound, chances. rewrite Hl. split.
  - split; [exact Hnd|]. intros p Hp. rewrite Hc. now apply Hall.
  - apply credit_ext. intros p _. apply Hc.
Qed.

Lemma ensure_nonempty env w :
  proxy_list w <> [] -> _ensure_global_proxies env w = w.
Proof.
  intros H. unfold _ensure_global_proxies.
  apply nonempty_true in H. now rewrite H.
Qed.

Section Exhaustion.

Variable env : Env.
Variables (url : string) (ct rt n : Z) (cb : bool).

Hypothesis Hs : shuffle_ok env.
Hypothesis Hfile : forall k, _get_proxies (read_file env k PROXY_FILE) = [].
Hypothesis Hfail :
  forall k u p a b, failed_attempt (session_get env k u p a b) = true.

Lemma try_proxy_fails attempt j l proxy w :
  sound w -> In proxy (proxy_list w) ->
  exists w',
    try_proxy env url ct rt cb attempt j l proxy w
    = Continue (attempt + 1) (S j) l w'
    /\ sound w' /\ chances w' = chances w - 1
    /\ (forall q, q <> proxy -> In q (proxy_list w) -> In q (proxy_list w'))
    /\ made w w' = 1.
Proof.
  intros Hw Hin. unfold try_proxy.
  set (w1 := if cb then log (EvCallback (attempt + 1) proxy) w else w).
  set (o := session_get env (tick w1) url proxy ct rt).
  set (w2 := advance (log (EvGet url proxy o) w1)).
  assert (H2 : proxy_list w2 = proxy_list w
               /\ proxy_failure_counts w2 = proxy_failure_counts w
               /\ attempts_of (trace w2) = o :: attempts_of (trace w))
    by (subst w2 w1; now destruct cb).
  destruct H2 as (Hl2 & Hc2 & Ht2).
  assert (Hw2 : sound w2 /\ chances w2 = chances w).
  { apply sound_same; [exact Hl2|now rewrite Hc2|exact Hw]. }
  destruct Hw2 as (Hw2 & Hch2).
  assert (Hin2 : In proxy (proxy_list w2)) by now rewrite Hl2.
  destruct (handle_failure_chances proxy w2 Hw2 Hin2) as (Hw3 & Hch3 & Hkeep).
  exists (sleep_jitter (_handle_proxy_failure (Some proxy) w2)).
  split.
  - pose proof (Hfail (tick w1) url proxy ct rt) as Ho. fold o in Ho.
    destruct o as [r|]; [|reflexivity]. cbn [failed_attempt] in Ho.
    now rewrite Ho.
  - split; [exact Hw3|]. split; [rewrite <- Hch2, <- Hch3; reflexivity|].
    split; [intros q Hq Hqin; apply Hkeep; [exact Hq|now rewrite Hl2]|].
    unfold made, sleep_jitter. cbn [trace advance log attempts_of].
    rewrite handle_failure_attempts, Ht2. cbn [length]. lia.
Qed.

Lemma next_cursor_cases i local w :
  sound w ->
  List.NoDup (drop i local) ->
  (forall p, In p (drop i local) -> In p (proxy_list w)) ->
  match next_cursor env i local w with
  | (None, w1) =>
      proxy_list w = [] /\ proxy_list w1 = [] /\ made w w1 = 0
  | (Some (l, j), w1) =>
      sound w1 /\ chances w1 = chances w /\ made w w1 = 0
      /\ exists proxy,
          l !! j = Some proxy /\ In proxy (proxy_list w1)
          /\ List.NoDup (proxy :: drop (S j) l)
          /\ forall q, In q (drop (S j) l) -> In q (proxy_list w1)
  end.
Proof.
  intros Hw Hnd Hsub.
  pose proof (next_cursor_quiet env i local w) as ((Hqa & _) & _).
  assert (Hmade : made w (snd (next_cursor env i local w)) = 0)
    by (unfold made; rewrite Hqa; lia).
  unfold next_cursor in *. destruct (length local <=? i)%nat eqn:Hlen.
  - rewrite resnapshot_eq in *. cbn zeta in *.
    destruct (proxy_list w) as [|x0 l0] eqn:Hl.
    + assert (He : proxy_list (_ensure_global_proxies env w) = []).
      { unfold _ensure_global_proxies. rewrite Hl. cbn [nonempty].
        rewrite Hfile. cbn [nonempty]. rewrite andb_false_r. cbn. exact Hl. }
      assert (Hsn : fst (_snapshot_local (_ensure_global_proxies env w)) = []).
      { rewrite snapshot_fst. unfold usable. now rewrite He. }
      rewrite Hsn in *. cbn [nonempty snd] in *.
      split; [reflexivity|]. split; [now rewrite snapshot_list|exact Hmade].
    + assert (Hne : proxy_list w <> []) by (rewrite Hl; discriminate).
      rewrite (ensure_nonempty env w Hne) in *.
      assert (Hsn : fst (_snapshot_local w) <> []).
      { intros E. apply Hne.
        now apply snapshot_nil. }
      apply nonempty_true in Hsn as Hsn'. rewrite Hsn' in *. cbn [snd] in *.
      set (w1 := advance (log _ (snd (_snapshot_local w)))) in *.
      assert (H1 : sound w1 /\ chances w1 = chances w).
      { apply sound_same; [|intros p|exact Hw].
        - subst w1. cbn. apply snapshot_list.
        - subst w1. cbn. apply (snapshot_quiet w). }
      destruct H1 as (Hw1 & Hch1).
      split; [exact Hw1|]. split; [exact Hch1|]. split; [exact Hmade|].
      set (l := shuffle env _ _).
      assert (Hperm : Permutation (fst (_snapshot_local w)) l) by apply Hs.
      assert (Hndl : List.NoDup l).
      { eapply Permutation_NoDup; [exact Hperm|].
        apply snapshot_NoDup. apply Hw. }
      assert (Hinl : forall q, In q l -> In q (proxy_list w1)).
      { intros q Hq. subst w1. cbn. rewrite snapshot_list. apply snapshot_In.
        eapply Permutation_in; [symmetry; exact Hperm|exact Hq]. }
      destruct l as [|proxy rest] eqn:El.
      * exfalso. apply Hsn. now apply Permutation_nil.
      * exists proxy. split; [reflexivity|]. split; [apply Hinl; now left|].
        split; [exact Hndl|]. intros q Hq. apply Hinl. now right.
  - cbn [snd] in *. apply Nat.leb_gt in Hlen.
    split; [exact Hw|]. split; [reflexivity|]. split; [exact Hmade|].
    destruct (lookup_lt_is_Some_2 local i Hlen) as [proxy Hp].
    exists proxy. rewrite (drop_S _ _ _ Hp) in Hnd, Hsub.
    split; [exact Hp|]. split; [apply Hsub; now left|].
    split; [exact Hnd|]. intros q Hq. apply Hsub. now right.
Qed.

Lemma chances_nonneg w : sound w -> Z.of_nat (length (proxy_list w)) <= chances w.
Proof. intros (_ & H). apply credit_lower. intros p Hp. apply (H p Hp). Qed.

Lemma retry_loop_spends fuel :
  forall attempt i local w,
    sound w ->
    List.NoDup (drop i local) ->
    (forall p, In p (drop i local) -> In p (proxy_list w)) ->
    (Z.to_nat (n - attempt) <= fuel)%nat ->
    let out := retry_loop fuel env url ct rt n cb attempt i local w in
    (chances w < n - attempt ->
     fst out = Raised NoProxiesAvailable
     /\ proxy_list (snd out) = [] /\ made w (snd out) = chances w)
    /\ (n - attempt <= chances w ->
        (exists stats, fst out = Raised (FailedAfter n stats))
        /\ made w (snd out) = Z.max 0 (n - attempt)
        /\ chances (snd out) = chances w - Z.max 0 (n - attempt)).
Proof.
  induction fuel as [|fuel IH]; intros attempt i local w Hw Hnd Hsub Hfuel;
    cbn zeta; cbn [retry_loop]; destruct (attempt <? n) eqn:Hlt;
    pose proof (chances_nonneg w Hw) as Hpos.
  - apply Z.ltb_lt in Hlt. lia.
  - apply Z.ltb_ge in Hlt. rewrite (surjective_pairing (get_proxy_stats w)).
    cbn [fst snd]. split; [lia|]. intros _. split; [eauto|].
    destruct (sound_same w (snd (get_proxy_stats w)) (stats_list w)) as (_ & Hc);
      [apply (stats_quiet w)|exact Hw|].
    unfold made. destruct (stats_quiet w) as (Ha & _). rewrite Ha, Hc. lia.
  - apply Z.ltb_lt in Hlt. rewrite retry_step_unfold.
    pose proof (next_cursor_cases i local w Hw Hnd Hsub) as Hc.
    destruct (next_cursor env i local w) as [[[l j]|] w1].
    + destruct Hc as (Hw1 & Hch1 & Hm1 & proxy & Hlj & Hin & Hnd1 & Hsub1).
      rewrite Hlj.
      destruct (try_proxy_fails attempt j l proxy w1 Hw1 Hin)
        as (w2 & -> & Hw2 & Hch2 & Hkeep & Hm2).
      apply List.NoDup_cons_iff in Hnd1 as (Hnotin & Hnd1).
      assert (Hsub2 : forall q, In q (drop (S j) l) -> In q (proxy_list w2)).
      { intros q Hq. apply Hkeep; [|now apply Hsub1].
        intros ->. exact (Hnotin Hq). }
      specialize (IH (attempt + 1) (S j) l w2 Hw2 Hnd1 Hsub2).
      cbn zeta in IH. destruct IH as (IHa & IHb); [lia|].
      unfold made in *. split.
      * intros Hless. destruct IHa as (Hr & Hl & Hm); [lia|].
        split; [exact Hr|]. split; [exact Hl|]. lia.
      * intros Hmore. destruct IHb as (Hr & Hm & Hc'); [lia|].
        split; [exact Hr|]. split; lia.
    + destruct Hc as (Hl & Hl1 & Hm). cbn [fst snd].
      assert (Hzero : chances w = 0) by (unfold chances; now rewrite Hl).
      split; [intros _; split; [reflexivity|split; [exact Hl1|lia]]|lia].
  - apply Z.ltb_ge in Hlt. rewrite (surjective_pairing (get_proxy_stats w)).
    cbn [fst snd]. split; [lia|]. intros _. split; [eauto|].
    destruct (sound_same w (snd (get_proxy_stats w)) (stats_list w)) as (_ & Hc);
      [apply (stats_quiet w)|exact Hw|].
    unfold made. destruct (stats_quiet w) as (Ha & _). rewrite Ha, Hc. lia.
Qed.

End Exhaustion.

Lemma credit_fresh m l :
  (forall p, In p l -> count_of m p = 0) ->
  credit m l = 2 * Z.of_nat (length l).
Proof.
  induction l as [|x r IH]; [reflexivity|]. intros H. cbn [credit length].
  rewrite (H x) by now left. rewrite IH by (intros p Hp; apply H; now right).
  unfold PROXY_REMOVE_AFTER. lia.
Qed.

(** X10. With no proxy file to fill the pool again and every request
    failing, a fetch spends the chances of the pool one request at a time: a
    pool that lists no address twice, none empty, and that can still take
    [chances] failures before its last address is removed (two for each
    address without a failure on record) ends a fetch with a larger budget
    in the empty-pool error after exactly [chances] requests, with the
    address list empty; with a budget of at most [chances] the fetch makes
    exactly that many requests, raises the budget error and leaves the pool
    with the chances not spent. *)
Theorem requests_get_spends_every_chance
    (env : Env) (url : string) (ct rt n : Z) (cb : bool) (w : World) :
  shuffle_ok env ->
  (forall k, _get_proxies (read_file env k PROXY_FILE) = []) ->
  (forall k u p a b, failed_attempt (session_get env k u p a b) = true) ->
  List.NoDup (proxy_list w) ->
  (forall p, In p (proxy_list w) ->
             p <> "" /\ count_of (proxy_failure_counts w) p < PROXY_REMOVE_AFTER) ->
  let res := fst (requests_get env url ct rt n cb w) in
  let w' := snd (requests_get env url ct rt n cb w) in
  (chances w < n ->
   res = Raised NoProxiesAvailable
   /\ proxy_list w' = [] /\ made w w' = chances w)
  /\ (n <= chances w ->
      (exists stats, res = Raised (FailedAfter n stats))
      /\ made w w' = Z.max 0 n
      /\ chances w' = chances w - Z.max 0 n)
  /\ ((forall p, In p (proxy_list w) ->
                 count_of (proxy_failure_counts w) p = 0) ->
      chances w = 2 * Z.of_nat (length (proxy_list w))).
Proof.
  intros Hs Hfile Hfail Hnd Hall. cbn zeta.
  assert (Hw : sound w) by (split; assumption).
  split; [|split; [|apply credit_fresh]];
    rewrite requests_get_eq; cbn zeta;
    set (w1 := _ensure_global_proxies env w);
    set (w3 := advance (log _ (snd (_snapshot_local w1))));
    set (local := shuffle env _ _).
  all: assert (Hl1 : proxy_list w1 = proxy_list w)
    by (subst w1; unfold _ensure_global_proxies;
        destruct (nonempty (proxy_list w)); [reflexivity|];
        rewrite Hfile; cbn [nonempty]; now rewrite andb_false_r).
  all: assert (Hw1 : sound w1 /\ chances w1 = chances w)
    by (apply sound_same; [exact Hl1|apply (ensure_quiet env w)|exact Hw]).
  all: assert (Hw3 : sound w3 /\ chances w3 = chances w1)
    by (apply sound_same;
        [subst w3; cbn; apply snapshot_list
        |intros p; subst w3; cbn; apply (snapshot_quiet w1)|apply Hw1]).
  all: assert (Hm3 : made w w3 = 0)
    by (unfold made; subst w3; cbn [trace advance log attempts_of];
        rewrite snapshot_trace; destruct (ensure_quiet env w) as (Ha & _);
        fold w1 in Ha; rewrite Ha; lia).
  all: assert (Hperm : Permutation (fst (_snapshot_local w1)) local)
    by apply Hs.
  all: assert (Hndl : List.NoDup (drop 0 local))
    by (cbn [drop]; eapply Permutation_NoDup; [exact Hperm|];
        apply snapshot_NoDup; apply Hw1).
  all: assert (Hsub : forall p, In p (drop 0 local) -> In p (proxy_list w3))
    by (intros p Hp; cbn [drop] in Hp; subst w3; cbn; rewrite snapshot_list;
        apply snapshot_In; eapply Permutation_in; [symmetry; exact Hperm|exact Hp]).
  all: destruct (retry_loop_spends env url ct rt n cb Hs Hfile Hfail
                   (Z.to_nat n) 0 0%nat local w3 (proj1 Hw3) Hndl Hsub)
    as (Ha & Hb); [lia|]; rewrite Z.sub_0_r in Ha, Hb;
    destruct Hw1 as (_ & Hc1); destruct Hw3 as (_ & Hc3); unfold made in *.
  - intros Hless. destruct Ha as (Hr & Hl & Hm); [lia|].
    split; [exact Hr|]. split; [exact Hl|]. lia.
  - intros Hmore. destruct Hb as (Hr & Hm & Hc); [lia|].
    split; [exact Hr|]. split; lia.
Qed.

Lemma requests_get_spends_every_chance_witness :
  shuffle_ok failing_env
  /\ chances two_fresh = 4
  /\ fst (requests_get failing_env "https://www.wg-gesucht.de" 3 5 200 false
            two_fresh)
     = Raised NoProxiesAvailable
  /\ made two_fresh
       (snd (requests_get failing_env "https://www.wg-gesucht.de" 3 5 200 false
               two_fresh))
     = chances two_fresh.
Proof.
  assert (Hs : shuffle_ok failing_env) by apply identity_shuffle_ok.
  assert (Hnd : List.NoDup (proxy_list two_fresh)).
  { repeat constructor; cbn; intuition discriminate. }
  assert (Hall : forall p, In p (proxy_list two_fresh) ->
                   p <> ""
                   /\ count_of (proxy_failure_counts two_fresh) p
                      < PROXY_REMOVE_AFTER).
  { intros p [<-|[<-|[]]]; split; (discriminate || reflexivity). }
  destruct (requests_get_spends_every_chance failing_env
              "https://www.wg-gesucht.de" 3 5 200 false two_fresh Hs
              (fun _ => eq_refl) (fun _ _ _ _ _ => eq_refl) Hnd Hall)
    as (Hless & _ & _).
  assert (Hc : chances two_fresh = 4) by reflexivity.
  destruct Hless as (Hr & _ & Hm); [rewrite Hc; reflexivity|].
  split; [exact Hs|]. split; [exact Hc|]. split; [exact Hr|exact Hm].
Defined.

(** ** The address helpers *)

Module ReFacts.
Import Text Re.

#[local] Arguments String.append !_ _ / : simpl nomatch.

Lemma app_assoc (a b c : string) : ((a ++ b) ++ c = a ++ (b ++ c))%string.
Proof.
  induction a as [|x a IH]; cbn [append]; [reflexivity|]. f_equal. exact IH.
Qed.

Lemma app_nil_r (a : string) : (a ++ "" = a)%string.
Proof.
  induction a as [|x a IH]; cbn [append]; [reflexivity|]. f_equal. exact IH.
Qed.

Lemma app_nil_inv (a b : string) : (a ++ b = "")%string -> a = "" /\ b = "".
Proof. destruct a; cbn; [auto|discriminate]. Qed.

Lemma digit_not_space c : is_digit c = true -> isspace c = false.
Proof. destruct c as [[] [] [] [] [] [] [] []]; vm_compute; congruence. Qed.

Lemma low_digit_not_space c :
  (Nat.leb 48 (nat_of_ascii c) && Nat.leb (nat_of_ascii c) 52)%bool = true ->
  isspace c = false.
Proof. destruct c as [[] [] [] [] [] [] [] []]; vm_compute; congruence. Qed.

(** What a match of the postcode pattern at the start of a string is. *)
Lemma zip_at_Some s z :
  zip_at s = Some z ->
  exists post, s = (z ++ post)%string /\ zip_at z = Some z
               /\ solid z = true /\ z <> "" /\ String.length z = 5%nat
               /\ 10000 <= decimal z <= 14999.
Proof.
  destruct s as [|a [|b [|c [|d [|e post]]]]]; try discriminate.
  unfold zip_at.
  destruct (Ascii.eqb a "1" && _ && is_digit c && is_digit d && is_digit e)%bool
    eqn:H; [|discriminate].
  intros [= <-]. exists post. split; [reflexivity|]. rewrite H.
  split; [reflexivity|].
  apply andb_true_iff in H as (H & He). apply andb_true_iff in H as (H & Hd).
  apply andb_true_iff in H as (H & Hc). apply andb_true_iff in H as (Ha & Hb).
  apply Ascii.eqb_eq in Ha. subst a. split.
  - cbn [solid]. rewrite (low_digit_not_space b Hb), (digit_not_space c Hc),
      (digit_not_space d Hd), (digit_not_space e He). reflexivity.
  - split; [discriminate|]. split; [reflexivity|].
    unfold decimal. cbn [list_ascii_of_string fold_left].
    unfold is_digit in *.
    apply andb_true_iff in Hb as (Hb1 & Hb2).
    apply andb_true_iff in Hc as (Hc1 & Hc2).
    apply andb_true_iff in Hd as (Hd1 & Hd2).
    apply andb_true_iff in He as (He1 & He2).
    apply Nat.leb_le in Hb1, Hb2, Hc1, Hc2, Hd1, Hd2, He1, He2.
    change (nat_of_ascii "1") with 49%nat. lia.
Qed.

Lemma zip_at_app z post : zip_at z = Some z -> zip_at (z ++ post) = Some z.
Proof.
  destruct z as [|a [|b [|c [|d [|e [|f r]]]]]]; try discriminate.
  - unfold zip_at. cbn [append]. now destruct (_ && _)%bool.
  - unfold zip_at. destruct (_ && _)%bool; [|discriminate]. discriminate.
Qed.

Lemma search_zip_Some s z :
  search_zip s = Some z ->
  zip_at z = Some z /\ exists pre post, s = (pre ++ z ++ post)%string.
Proof.
  induction s as [|c r IH]; [discriminate|]. cbn [search_zip].
  destruct (zip_at (String c r)) as [z'|] eqn:Hz.
  - intros [= ->]. apply zip_at_Some in Hz as (post & Hs & Hz & _).
    split; [exact Hz|]. exists "", post. exact Hs.
  - intros H. apply IH in H as (Hz' & pre & post & ->).
    split; [exact Hz'|]. now exists (String c pre), post.
Qed.

Lemma search_zip_finds pre z post :
  zip_at z = Some z -> exists z', search_zip (pre ++ z ++ post) = Some z'.
Proof.
  intros Hz. induction pre as [|c pre IH].
  - cbn [append]. pose proof (zip_at_app z post Hz) as Ha.
    destruct (z ++ post)%string as [|a r] eqn:E; [discriminate|].
    cbn [search_zip]. rewrite Ha. now exists z.
  - cbn [append search_zip]. destruct (zip_at (String c _)); [eauto|exact IH].
Qed.

(** *** Windows without whitespace survive trimming and collapsing *)

Lemma lstrip_suffix s : exists p, s = (p ++ lstrip s)%string.
Proof.
  induction s as [|c r (p & IH)]; [now exists ""|]. cbn [lstrip].
  destruct (isspace c); [|now exists ""].
  exists (String c p). cbn. now rewrite <- IH.
Qed.

Lemma rstrip_prefix s : exists q, s = (rstrip s ++ q)%string.
Proof.
  induction s as [|c r (q & IH)]; [now exists ""|]. cbn [rstrip].
  destruct (rstrip r) as [|d r'].
  - destruct (isspace c); [now exists (String c r)|]. exists r. reflexivity.
  - exists q. cbn. cbn in IH. now rewrite <- IH.
Qed.

Lemma strip_window a pre z post :
  strip a = (pre ++ z ++ post)%string ->
  exists pre' post', a = (pre' ++ z ++ post')%string.
Proof.
  unfold strip. intros H.
  destruct (rstrip_prefix a) as (q & Ha).
  destruct (lstrip_suffix (rstrip a)) as (p & Hr).
  exists (p ++ pre)%string, (post ++ q)%string.
  rewrite Ha at 1. rewrite Hr at 1. rewrite H.
  now rewrite !app_assoc.
Qed.

Lemma collapse_prefix z :
  forall s post,
    collapse_from false s = (z ++ post)%string -> solid z = true ->
    exists post', s = (z ++ post')%string.
Proof.
  induction z as [|d z IH]; intros s post H Hz; [now exists s|].
  cbn [solid] in Hz. apply andb_true_iff in Hz as (Hd & Hz).
  apply negb_true_iff in Hd.
  destruct s as [|c r]; [discriminate|]. cbn [collapse_from append] in H.
  destruct (isspace c) eqn:Hc.
  - injection H as <- _. discriminate.
  - injection H as -> H. destruct (IH r post H Hz) as (post' & ->).
    now exists post'.
Qed.

Lemma collapse_window z post :
  solid z = true ->
  forall s b pre,
    collapse_from b s = (pre ++ z ++ post)%string ->
    exists pre' post', s = (pre' ++ z ++ post')%string.
Proof.
  intros Hz. destruct z as [|d z]; [intros s b pre _; now exists "", s|].
  assert (Hd : isspace d = false).
  { cbn [solid] in Hz. apply andb_true_iff in Hz as (Hd & _).
    now apply negb_true_iff in Hd. }
  induction s as [|c r IH]; intros b pre H.
  - cbn in H. symmetry in H. apply app_nil_inv in H as (_ & H). discriminate.
  - cbn [collapse_from] in H. destruct (isspace c) eqn:Hc.
    + destruct b.
      * destruct (IH true pre H) as (pre' & post' & ->).
        now exists (String c pre'), post'.
      * destruct pre as [|x pre]; cbn [append] in H.
        -- injection H as <- _. discriminate.
        -- injection H as _ H. destruct (IH true pre H) as (pre' & post' & ->).
           now exists (String c pre'), post'.
    + destruct pre as [|x pre]; cbn [append] in H.
      * destruct (collapse_prefix (String d z) (String c r) post) as (post' & E).
        -- cbn [collapse_from]. now rewrite Hc.
        -- exact Hz.
        -- exists "", post'. exact E.
      * injection H as _ H. destruct (IH false pre H) as (pre' & post' & ->).
        now exists (String c pre'), post'.
Qed.

Lemma rstrip_keeps_head z post :
  solid z = true -> z <> "" ->
  exists post', rstrip (z ++ post) = (z ++ post')%string.
Proof.
  induction z as [|d z IH]; [easy|]. intros Hz _.
  cbn [solid] in Hz. apply andb_true_iff in Hz as (Hd & Hz).
  apply negb_true_iff in Hd. cbn [append rstrip].
  destruct z as [|e z].
  - cbn [append]. destruct (rstrip post) as [|x r']; [|now exists (String x r')].
    rewrite Hd. now exists "".
  - destruct (IH Hz) as (post' & ->); [discriminate|]. cbn [append].
    now exists post'.
Qed.

Lemma rstrip_keeps_window pre z post :
  solid z = true -> z <> "" ->
  exists post', rstrip (pre ++ z ++ post) = (pre ++ z ++ post')%string.
Proof.
  intros Hz Hne. induction pre as [|c pre (post' & IH)].
  - cbn [append]. now apply rstrip_keeps_head.
  - cbn [append rstrip]. rewrite IH.
    destruct (pre ++ z ++ post')%string eqn:E.
    + apply app_nil_inv in E as (_ & E). apply app_nil_inv in E as (E & _).
      contradiction.
    + exists post'. now rewrite <- E.
Qed.

Lemma lstrip_keeps_window pre z post :
  solid z = true -> z <> "" ->
  exists pre', lstrip (pre ++ z ++ post) = (pre' ++ z ++ post)%string.
Proof.
  intros Hz Hne. induction pre as [|c pre (pre' & IH)].
  - exists "". destruct z as [|d z]; [contradiction|].
    cbn [solid] in Hz. apply andb_true_iff in Hz as (Hd & _).
    apply negb_true_iff in Hd. cbn [append lstrip]. now rewrite Hd.
  - cbn [append lstrip]. destruct (isspace c); [now exists pre'|].
    now exists (String c pre).
Qed.

Lemma collapse_keeps_head z :
  solid z = true -> z <> "" ->
  forall b post, collapse_from b (z ++ post)
                 = (z ++ collapse_from false post)%string.
Proof.
  induction z as [|d z IH]; [easy|]. intros Hz _ b post.
  cbn [solid] in Hz. apply andb_true_iff in Hz as (Hd & Hz).
  apply negb_true_iff in Hd. cbn [append collapse_from]. rewrite Hd. f_equal.
  destruct z as [|e z]; [reflexivity|]. apply IH; [exact Hz|discriminate].
Qed.

Lemma collapse_keeps_window pre z post :
  solid z = true -> z <> "" ->
  forall b, exists pre' post',
    collapse_from b (pre ++ z ++ post) = (pre' ++ z ++ post')%string.
Proof.
  intros Hz Hne. induction pre as [|c pre IH]; intros b.
  - exists "", (collapse_from false post). cbn [append].
    now apply collapse_keeps_head.
  - cbn [append collapse_from]. destruct (isspace c).
    + destruct b.
      * apply IH.
      * destruct (IH true) as (pre' & post' & ->).
        now exists (String " " pre'), post'.
    + destruct (IH false) as (pre' & post' & ->).
      now exists (String c pre'), post'.
Qed.

(** *** The street group *)

Lemma street_group_Some s g :
  street_group s = Some g ->
  exists rest, s = (g ++ rest)%string /\ g <> "" /\ lookahead rest = true.
Proof.
  revert g. induction s as [|c r IH]; intros g; [discriminate|].
  cbn [street_group]. destruct (Ascii.eqb c LF); [discriminate|].
  destruct (lookahead r) eqn:Hl.
  - intros [= <-]. now exists r.
  - destruct (street_group r) as [g'|]; [|discriminate]. intros [= <-].
    destruct (IH g' eq_refl) as (rest & -> & _ & Hrest).
    exists rest. now repeat split.
Qed.

Lemma space_not_lf c : isspace c = false -> Ascii.eqb c LF = false.
Proof. destruct c as [[] [] [] [] [] [] [] []]; vm_compute; congruence. Qed.

Lemma collapse_one_line s : forall b, one_line (collapse_from b s) = true.
Proof.
  induction s as [|c r IH]; intros b; [reflexivity|]. cbn [collapse_from].
  destruct (isspace c) eqn:Hc.
  - destruct b; [apply IH|]. cbn [one_line]. now rewrite IH.
  - cbn [one_line]. now rewrite (space_not_lf c Hc), IH.
Qed.

Lemma search_zip_None_head s : search_zip s = None -> zip_at s = None.
Proof.
  destruct s as [|c r]; [reflexivity|]. cbn [search_zip].
  now destruct (zip_at (String c r)).
Qed.

(** Without a postcode and without a line feed, the group is the whole
    string. *)
Lemma street_group_whole s :
  search_zip s = None -> one_line s = true -> s <> "" ->
  street_group s = Some s.
Proof.
  induction s as [|c r IH]; [easy|]. intros Hz Hl _.
  cbn [one_line] in Hl. apply andb_true_iff in Hl as (Hc & Hl).
  apply negb_true_iff in Hc. cbn [street_group]. rewrite Hc.
  assert (Hr : search_zip r = None).
  { cbn [search_zip] in Hz. now destruct (zip_at (String c r)). }
  unfold lookahead. rewrite (search_zip_None_head r Hr). cbn [orb].
  destruct r as [|d r']; [reflexivity|].
  assert (Hd : Ascii.eqb d LF = false).
  { cbn [one_line] in Hl. apply andb_true_iff in Hl as (Hd & _).
    now apply negb_true_iff in Hd. }
  replace (match r' with EmptyString => Ascii.eqb d LF | String _ _ => false end)
    with false by (destruct r'; [now rewrite Hd|reflexivity]).
  rewrite IH; [reflexivity|exact Hr|exact Hl|discriminate].
Qed.

Lemma rstrip_chars_again f s :
  rstrip_chars f (rstrip_chars f s) = rstrip_chars f s.
Proof.
  induction s as [|c r IH]; [reflexivity|]. cbn [rstrip_chars].
  destruct (rstrip_chars f r) as [|d r'] eqn:Hr.
  - destruct (f c) eqn:Hc; [reflexivity|]. cbn [rstrip_chars]. now rewrite Hc.
  - change (rstrip_chars f (String c (String d r'))) with
      (match rstrip_chars f (String d r') with
       | EmptyString => if f c then EmptyString else String c EmptyString
       | r0 => String c r0
       end).
    now rewrite IH.
Qed.

Lemma lstrip_head s :
  lstrip s = "" \/ exists c r, lstrip s = String c r /\ isspace c = false.
Proof.
  induction s as [|c r IH]; [now left|]. cbn [lstrip].
  destruct (isspace c) eqn:Hc; [exact IH|]. right. now exists c, r.
Qed.

Lemma rstrip_chars_keeps_unspaced f s :
  lstrip (rstrip_chars f (strip s)) = rstrip_chars f (strip s).
Proof.
  unfold strip. destruct (lstrip_head (rstrip s)) as [->|(c & r & -> & Hc)];
    [reflexivity|].
  cbn [rstrip_chars]. destruct (rstrip_chars f r).
  - destruct (f c); [reflexivity|]. cbn [lstrip]. now rewrite Hc.
  - cbn [lstrip]. now rewrite Hc.
Qed.

End ReFacts.

(** X11. The postcode helper answers nothing for a missing or empty
    address; what it answers is a five-character postcode between 10000 and
    14999 that stands in the address as given; and it answers with a
    postcode whenever the address holds one. *)
Theorem extract_zip_finds_the_postcode :
  _extract_zip_from_address None = None
  /\ _extract_zip_from_address (Some "") = None
  /\ (forall a z,
        _extract_zip_from_address (Some a) = Some z ->
        Re.zip_at z = Some z
        /\ String.length z = 5%nat
        /\ 10000 <= decimal z <= 14999
        /\ exists pre post, a = (pre ++ z ++ post)%string)
  /\ (forall pre z post,
        Re.zip_at z = Some z ->
        exists z',
          _extract_zip_from_address (Some (pre ++ z ++ post)%string) = Some z').
Proof.
  split; [reflexivity|]. split; [reflexivity|]. split.
  - intros a z. unfold _extract_zip_from_address.
    destruct (negb (Text.truthy a)); [discriminate|]. intros H.
    apply ReFacts.search_zip_Some in H as (Hz & pre & post & Hwin).
    destruct (ReFacts.zip_at_Some z z Hz) as (_ & _ & _ & Hsolid & _ & Hlen & Hdec).
    split; [exact Hz|]. split; [exact Hlen|]. split; [exact Hdec|].
    apply (ReFacts.collapse_window z post Hsolid) in Hwin
      as (pre1 & post1 & Hwin).
    now apply ReFacts.strip_window in Hwin.
  - intros pre z post Hz. unfold _extract_zip_from_address.
    destruct (ReFacts.zip_at_Some z z Hz) as (_ & _ & _ & Hsolid & Hne & _).
    assert (Ht : Text.truthy (pre ++ z ++ post)%string = true).
    { destruct (pre ++ z ++ post)%string eqn:E; [|reflexivity].
      apply ReFacts.app_nil_inv in E as (_ & E).
      apply ReFacts.app_nil_inv in E as (E & _). contradiction. }
    rewrite Ht. cbn [negb]. unfold Text.strip.
    destruct (ReFacts.rstrip_keeps_window pre z post Hsolid Hne) as (post1 & ->).
    destruct (ReFacts.lstrip_keeps_window pre z post1 Hsolid Hne) as (pre1 & ->).
    destruct (ReFacts.collapse_keeps_window pre1 z post1 Hsolid Hne false)
      as (pre2 & post2 & E).
    unfold Re.collapse. rewrite E. now apply ReFacts.search_zip_finds.
Qed.

Lemma extract_zip_finds_the_postcode_witness :
  _extract_zip_from_address (Some "Torstr. 12,   10115 Berlin") = Some "10115"
  /\ Re.zip_at "10115" = Some "10115"
  /\ 10000 <= decimal "10115" <= 14999.
Proof.
  assert (H : _extract_zip_from_address (Some "Torstr. 12,   10115 Berlin")
              = Some "10115") by reflexivity.
  destruct (proj1 (proj2 (proj2 extract_zip_finds_the_postcode)) _ _ H)
    as (Hz & _ & Hd & _).
  split; [exact H|]. split; [exact Hz|exact Hd].
Defined.

(** X12. The street helper answers nothing for a missing or empty address;
    a street it answers is never empty, ends in neither a dot nor a comma,
    starts with no whitespace, and is the trimmed part of the normalised
    address in front of a postcode followed by whitespace, or in front of
    the end; for an address in which the postcode helper finds nothing, it is
    the whole normalised address, trimmed. *)
Theorem extract_street_is_trimmed_prefix :
  _extract_street_from_address None = None
  /\ _extract_street_from_address (Some "") = None
  /\ (forall a street,
        _extract_street_from_address (Some a) = Some street ->
        street <> ""
        /\ Re.rstrip_chars dot_or_comma street = street
        /\ Text.lstrip street = street
        /\ exists g rest,
            Re.collapse (Text.strip a) = (g ++ rest)%string
            /\ street = Re.rstrip_chars dot_or_comma (Text.strip g)
            /\ Re.lookahead rest = true)
  /\ (forall a,
        _extract_zip_from_address (Some a) = None ->
        _extract_street_from_address (Some a)
        = let street :=
            Re.rstrip_chars dot_or_comma
              (Text.strip (Re.collapse (Text.strip a))) in
          if Text.truthy street then Some street else None).
Proof.
  split; [reflexivity|]. split; [reflexivity|]. split.
  - intros a street. unfold _extract_street_from_address.
    destruct (negb (Text.truthy a)); [discriminate|].
    destruct (Re.street_group _) as [g|] eqn:Hg; [|discriminate]. cbn zeta.
    destruct (Text.truthy _) eqn:Ht; [|discriminate]. intros [= <-].
    split; [now apply truthy_nonempty|].
    split; [apply ReFacts.rstrip_chars_again|].
    split; [apply ReFacts.rstrip_chars_keeps_unspaced|].
    apply ReFacts.street_group_Some in Hg as (rest & Hn & _ & Hl).
    now exists g, rest.
  - intros a. unfold _extract_zip_from_address, _extract_street_from_address.
    destruct (negb (Text.truthy a)) eqn:Ha.
    + intros _. destruct a; [reflexivity|discriminate].
    + intros Hz. destruct (Re.collapse (Text.strip a)) as [|c r] eqn:En.
      * reflexivity.
      * rewrite ReFacts.street_group_whole; [reflexivity|exact Hz| |discriminate].
        rewrite <- En. apply ReFacts.collapse_one_line.
Qed.

Lemma extract_street_is_trimmed_prefix_witness :
  _extract_street_from_address (Some "Torstr. 12,   10115 Berlin")
  = Some "Torstr. 12"
  /\ Text.lstrip "Torstr. 12" = "Torstr. 12"
  /\ _extract_zip_from_address (Some "  Am Platz 3. ") = None
  /\ _extract_street_from_address (Some "  Am Platz 3. ") = Some "Am Platz 3".
Proof.
  assert (H : _extract_street_from_address (Some "Torstr. 12,   10115 Berlin")
              = Some "Torstr. 12") by reflexivity.
  assert (Hz : _extract_zip_from_address (Some "  Am Platz 3. ") = None)
    by reflexivity.
  destruct (proj1 (proj2 (proj2 extract_street_is_trimmed_prefix)) _ _ H)
    as (_ & _ & Hl & _).
  pose proof (proj2 (proj2 (proj2 extract_street_is_trimmed_prefix)) _ Hz) as Hs.
  split; [exact H|]. split; [exact Hl|]. split; [exact Hz|exact Hs].
Defined.

(** ** The scraper and the list page parser *)

Module SetFacts.
Import Models.

Lemma set_add_In x s y : In y (set_add x s) -> In y s \/ y = x.
Proof.
  unfold set_add. destruct (existsb (FlatAd_eq x) s); [now left|].
  intros H. apply in_app_or in H as [H|[<-|[]]]; auto.
Qed.

Lemma set_add_keeps x s y : In y s -> In y (set_add x s).
Proof.
  unfold set_add. destruct (existsb (FlatAd_eq x) s); [easy|].
  intros H. apply in_or_app. now left.
Qed.

Lemma set_add_NoDup x s :
  List.NoDup (map url s) -> List.NoDup (map url (set_add x s)).
Proof.
  intros H. unfold set_add. destruct (existsb (FlatAd_eq x) s) eqn:E; [exact H|].
  rewrite map_app. cbn [map]. apply List.NoDup_app.
  - exact H.
  - repeat constructor. intros [].
  - intros u Hu [<-|[]]. apply in_map_iff in Hu as (y & Hy & Hin).
    assert (existsb (FlatAd_eq x) s = true); [|congruence].
    apply existsb_exists. exists y. split; [exact Hin|].
    unfold FlatAd_eq. rewrite Hy. apply String.eqb_refl.
Qed.

Lemma set_update_spec other :
  forall s,
    (List.NoDup (map url s) -> List.NoDup (map url (set_update s other)))
    /\ (forall y, In y (set_update s other) -> In y s \/ In y other)
    /\ (forall y, In y s -> In y (set_update s other)).
Proof.
  unfold set_update.
  induction other as [|x other IH]; intros s; cbn [fold_left].
  - repeat split; auto.
  - destruct (IH (set_add x s)) as (Hnd & Hin & Hkeep). repeat split.
    + intros H. apply Hnd. now apply set_add_NoDup.
    + intros y Hy. apply Hin in Hy as [Hy|Hy]; [|right; now right].
      apply set_add_In in Hy as [Hy| ->]; [now left|right; now left].
    + intros y Hy. apply Hkeep. now apply set_add_keeps.
Qed.

End SetFacts.

Section Pages.

Variable env : Env.
Variable parse : string -> option (list Models.FlatAd).
Variable end_page : option Z.

Hypothesis Hs : shuffle_ok env.

(** A page the loop may ask for, from [first] on. *)
Let page_from (first : Z) (u : string) : Prop :=
  exists k, first <= k
            /\ match end_page with Some e => k < e | None => True end
            /\ u = page_url k.

Lemma fetch_of_page page_num w :
  fst (requests_get env (page_url page_num) CONNECT_TIMEOUT READ_TIMEOUT
         MAX_ATTEMPTS false w) <> OutOfFuel
  /\ exists dg,
      gets_of (trace (snd (requests_get env (page_url page_num) CONNECT_TIMEOUT
                             READ_TIMEOUT MAX_ATTEMPTS false w)))
      = dg ++ gets_of (trace w)
      /\ forall u p, In (u, p) dg -> u = page_url page_num.
Proof.
  split.
  - destruct (requests_get_log env (page_url page_num) CONNECT_TIMEOUT
                READ_TIMEOUT MAX_ATTEMPTS false w Hs) as (during & _ & He).
    intros E. rewrite E in He. exact He.
  - destruct (requests_get_ledger env (fun _ => True) (page_url page_num)
                CONNECT_TIMEOUT READ_TIMEOUT MAX_ATTEMPTS false Hs)
      with (w := w) as (dg & _ & _ & Hdg & _ & _ & Hall & _); [easy|easy|].
    exists dg. split; [exact Hdg|]. intros u p H. now apply Hall in H.
Qed.

Lemma scrape_pages_spec fuel :
  forall page_num all_ads w,
    let out := scrape_pages fuel env parse end_page page_num all_ads w in
    (forall ads pn, fst out = Some (ads, pn) ->
       (List.NoDup (map Models.url all_ads) -> List.NoDup (map Models.url ads))
       /\ (forall ad, In ad ads ->
             In ad all_ads \/ exists t page, parse t = Some page /\ In ad page)
       /\ (forall ad, In ad all_ads -> In ad ads)
       /\ page_num <= pn)
    /\ (exists dg,
          gets_of (trace (snd out)) = dg ++ gets_of (trace w)
          /\ forall u p, In (u, p) dg -> page_from page_num u)
    /\ (forall e, end_page = Some e ->
          (Z.to_nat (e - page_num) <= fuel)%nat -> fst out <> None).
Proof.
  assert (Hstop : forall page_num all_ads,
             (forall ads pn, Some (all_ads, page_num) = Some (ads, pn) ->
                (List.NoDup (map Models.url all_ads) ->
                 List.NoDup (map Models.url ads))
                /\ (forall ad, In ad ads ->
                      In ad all_ads
                      \/ exists t page, parse t = Some page /\ In ad page)
                /\ (forall ad, In ad all_ads -> In ad ads)
                /\ page_num <= pn)).
  { intros page_num all_ads ads pn [= <- <-]. repeat split; auto. lia. }
  induction fuel as [|fuel IH]; intros page_num all_ads w; cbn zeta;
    cbn [scrape_pages];
    destruct (match end_page with Some e => e <=? page_num | None => false end)
      eqn:Hbreak;
    try (cbn [fst snd]; split; [now apply Hstop|];
         split; [exists []; split; [reflexivity|intros u p []]|easy]).
  - cbn [fst snd]. split; [discriminate|].
    split; [exists []; split; [reflexivity|intros u p []]|].
    intros e -> Hfuel. apply Z.leb_gt in Hbreak. lia.
  - destruct (fetch_of_page page_num w) as (Hfuel & dg & Hdg & Hall).
    assert (Hpage : page_from page_num (page_url page_num)).
    { exists page_num. split; [lia|]. split; [|reflexivity].
      destruct end_page as [e|]; [|exact I]. now apply Z.leb_gt in Hbreak. }
    assert (Hgets : exists dg0,
               gets_of (trace (snd (requests_get env (page_url page_num)
                                      CONNECT_TIMEOUT READ_TIMEOUT MAX_ATTEMPTS
                                      false w)))
               = dg0 ++ gets_of (trace w)
               /\ forall u p, In (u, p) dg0 -> page_from page_num u).
    { exists dg. split; [exact Hdg|]. intros u p H.
      apply Hall in H. now subst u. }
    destruct (requests_get env (page_url page_num) CONNECT_TIMEOUT READ_TIMEOUT
                MAX_ATTEMPTS false w) as [[response|ex|] w1];
      cbn [fst snd] in *; [| |contradiction].
    + destruct (negb (status_code response =? 200));
        [cbn [fst snd]; split; [now apply Hstop|]; split; [exact Hgets|easy]|].
      destruct (parse (text response)) as [page_ads|] eqn:Hparse;
        [|cbn [fst snd]; split; [now apply Hstop|]; split; [exact Hgets|easy]].
      destruct (negb (nonempty page_ads));
        [cbn [fst snd]; split; [now apply Hstop|]; split; [exact Hgets|easy]|].
      specialize (IH (page_num + 1) (Models.set_update all_ads page_ads) w1).
      cbn zeta in IH. destruct IH as (IHa & (dg' & Hdg' & Hall') & IHc).
      destruct (SetFacts.set_update_spec page_ads all_ads) as (Hnd & Hin & Hkeep).
      split; [|split].
      * intros ads pn Hout. destruct (IHa ads pn Hout) as (H1 & H2 & H3 & H4).
        split; [auto|]. split; [|split; [auto|lia]].
        intros ad Had. destruct (H2 ad Had) as [Hu|Hp]; [|now right].
        apply Hin in Hu as [Hu|Hu]; [now left|right; eauto].
      * exists (dg' ++ dg). split; [now rewrite Hdg', Hdg, <- app_assoc|].
        intros u p H. apply in_app_or in H as [H|H].
        -- destruct (Hall' u p H) as (k & Hk & He & ->).
           exists k. split; [lia|]. now split.
        -- apply Hall in H. now subst u.
      * intros e He Hfuel'. apply (IHc e He). rewrite He in Hbreak.
        apply Z.leb_gt in Hbreak. lia.
    + split; [now apply Hstop|]. split; [exact Hgets|easy].
Qed.

End Pages.

(** X13. [find_shared_flats] asks only for list pages from [start_page] on
    and, with an [end_page], below it; with an [end_page] it ends within as
    many rounds as there are pages in the range, and without a request when
    the range is empty. The ads it returns have pairwise different URLs, and
    each of them is an ad the parser found on some page. *)
Theorem find_shared_flats_stays_in_range
    (env : Env) (parse : string -> option (list Models.FlatAd))
    (start_page : Z) (end_page : option Z) (fuel : nat) (w : World) :
  shuffle_ok env ->
  let out := find_shared_flats fuel env parse start_page end_page w in
  (forall ads, fst out = Some ads ->
     List.NoDup (map Models.url ads)
     /\ forall ad, In ad ads ->
                   exists t page, parse t = Some page /\ In ad page)
  /\ (exists requests,
        gets_of (trace (snd out)) = requests ++ gets_of (trace w)
        /\ forall u p, In (u, p) requests ->
             exists k, start_page <= k
                       /\ match end_page with
                          | Some e => k < e
                          | None => True
                          end
                       /\ u = page_url k)
  /\ (forall e, end_page = Some e ->
        (Z.to_nat (e - start_page) <= fuel)%nat ->
        exists ads, fst out = Some ads)
  /\ (forall e, end_page = Some e -> e <= start_page -> out = (Some [], w)).
Proof.
  intros Hs. cbn zeta. unfold find_shared_flats.
  pose proof (scrape_pages_spec env parse end_page Hs fuel start_page [] w)
    as Hspec. cbn zeta in Hspec.
  split; [|split; [|split]].
  - destruct (scrape_pages fuel env parse end_page start_page [] w)
      as [[[ads0 pn]|] w1]; cbn [fst snd option_map] in *; [|discriminate].
    intros ads [= <-]. destruct Hspec as (Ha & _).
    destruct (Ha ads0 pn eq_refl) as (Hnd & Hin & _).
    split; [apply Hnd; constructor|]. intros ad Had.
    destruct (Hin ad Had) as [[]|H]; exact H.
  - destruct Hspec as (_ & Hg & _).
    now destruct (scrape_pages fuel env parse end_page start_page [] w).
  - intros e He Hfuel. destruct Hspec as (_ & _ & Hc). specialize (Hc e He Hfuel).
    destruct (scrape_pages fuel env parse end_page start_page [] w)
      as [[[ads0 pn]|] w1]; cbn [fst snd option_map] in *; [eauto|contradiction].
  - intros e -> Hle. clear Hspec.
    assert (Hb : (e <=? start_page) = true) by now apply Z.leb_le.
    destruct fuel; cbn [scrape_pages]; rewrite Hb; reflexivity.
Qed.

Lemma find_shared_flats_stays_in_range_witness :
  shuffle_ok echo_env
  /\ (Z.to_nat (5 - 0) <= 6)%nat
  /\ exists ads,
      fst (find_shared_flats 6 echo_env two_page_parse 0 (Some 5) fresh_single)
      = Some ads
      /\ List.NoDup (map Models.url ads).
Proof.
  assert (Hs : shuffle_ok echo_env) by apply identity_shuffle_ok.
  assert (Hf : (Z.to_nat (5 - 0) <= 6)%nat) by (vm_compute; lia).
  destruct (find_shared_flats_stays_in_range echo_env two_page_parse 0 (Some 5)
              6 fresh_single Hs) as (Hads & _ & Hend & _).
  destruct (Hend 5 eq_refl Hf) as (ads & Hout).
  split; [exact Hs|]. split; [exact Hf|]. exists ads.
  split; [exact Hout|exact (proj1 (Hads ads Hout))].
Defined.



Section Rows.

Context {Row : Type}.
Variable parse_single_ad : Row -> option Models.FlatAd.

Let step (ads : list Models.FlatAd) (row : Row) : list Models.FlatAd :=
  match parse_single_ad row with
  | Some ad => Models.set_add ad ads
  | None => ads
  end.

Lemma set_add_has x s : In (Models.url x) (map Models.url (Models.set_add x s)).
Proof.
  unfold Models.set_add. destruct (existsb (Models.FlatAd_eq x) s) eqn:E.
  - apply existsb_exists in E as (y & Hy & Heq). apply String.eqb_eq in Heq.
    rewrite Heq. now apply in_map.
  - rewrite map_app. apply in_or_app. right. now left.
Qed.

Lemma fold_rows_spec rows :
  forall ads,
    (List.NoDup (map Models.url ads) ->
     List.NoDup (map Models.url (fold_left step rows ads)))
    /\ (forall ad, In ad (fold_left step rows ads) ->
          In ad ads \/ exists row, In row rows /\ parse_single_ad row = Some ad)
    /\ (forall u, In u (map Models.url ads) ->
          In u (map Models.url (fold_left step rows ads)))
    /\ (forall row ad, In row rows -> parse_single_ad row = Some ad ->
          In (Models.url ad) (map Models.url (fold_left step rows ads)))
    /\ fold_left step (List.filter (parses parse_single_ad) rows) ads
       = fold_left step rows ads.
Proof.
  induction rows as [|row rows IH]; intros ads; cbn [fold_left List.filter].
  - repeat split; auto. intros row ad [].
  - destruct (IH (step ads row)) as (Hnd & Hin & Hkeep & Hall & Hskip).
    assert (Hads : forall u, In u (map Models.url ads) ->
                     In u (map Models.url (step ads row))).
    { intros u Hu. unfold step. destruct (parse_single_ad row); [|exact Hu].
      apply in_map_iff in Hu as (y & <- & Hy). apply in_map.
      now apply SetFacts.set_add_keeps. }
    split; [|split; [|split; [|split]]].
    + intros H. apply Hnd. unfold step.
      destruct (parse_single_ad row); [now apply SetFacts.set_add_NoDup|exact H].
    + intros ad Had. destruct (Hin ad Had) as [H|(r & Hr & Hp)].
      * unfold step in H. destruct (parse_single_ad row) as [x|] eqn:Hx;
          [|now left].
        apply SetFacts.set_add_In in H as [H| ->]; [now left|].
        right. exists row. split; [now left|exact Hx].
      * right. exists r. split; [now right|exact Hp].
    + intros u Hu. apply Hkeep. now apply Hads.
    + intros r ad [<-|Hr] Hp; [|now apply (Hall r ad)].
      apply Hkeep. unfold step. rewrite Hp. apply set_add_has.
    + unfold parses at 1. destruct (parse_single_ad row) eqn:Hx.
      * cbn [fold_left]. exact Hskip.
      * assert (Hst : step ads row = ads) by (unfold step; now rewrite Hx).
        rewrite Hst in Hskip |- *. exact Hskip.
Qed.

End Rows.

(** X15. The list page parser returns ads with pairwise different URLs,
    each parsed from one of the rows; every row that parses has its URL among
    them; and the rows on which the row parser raises make no difference to
    the result. *)
Theorem parse_rows_keeps_one_ad_per_url {Row : Type}
    (parse_single_ad : Row -> option Models.FlatAd) (rows : list Row) :
  List.NoDup (map Models.url (parse_rows parse_single_ad rows))
  /\ (forall ad, In ad (parse_rows parse_single_ad rows) ->
        exists row, In row rows /\ parse_single_ad row = Some ad)
  /\ (forall row ad, In row rows -> parse_single_ad row = Some ad ->
        In (Models.url ad) (map Models.url (parse_rows parse_single_ad rows)))
  /\ parse_rows parse_single_ad (List.filter (parses parse_single_ad) rows)
     = parse_rows parse_single_ad rows.
Proof.
  unfold parse_rows.
  destruct (fold_rows_spec parse_single_ad rows [])
    as (Hnd & Hin & _ & Hall & Hskip).
  split; [apply Hnd; constructor|]. split; [|split; [exact Hall|exact Hskip]].
  intros ad Had. destruct (Hin ad Had) as [[]|H]. exact H.
Qed.

Lemma parse_rows_keeps_one_ad_per_url_witness :
  In 2%nat [0%nat; 1%nat; 2%nat]
  /\ In "https://www.wg-gesucht.de/1.html"
       (map Models.url (parse_rows row_of_number [0%nat; 1%nat; 2%nat]))
  /\ length (parse_rows row_of_number [0%nat; 1%nat; 2%nat]) = 1%nat.
Proof.
  assert (H : In 2%nat [0%nat; 1%nat; 2%nat]) by (right; right; now left).
  split; [exact H|]. split; [|reflexivity].
  exact (proj1 (proj2 (proj2 (parse_rows_keeps_one_ad_per_url row_of_number
                                [0%nat; 1%nat; 2%nat])))
           2%nat (Models.mkFlatAd "https://www.wg-gesucht.de/1.html"
                    (2024, 1, 31) 2 20 "Mitte" 1 1 0 2) H eq_refl).
Defined.

(** ** Removal and lazy seeding together *)

(** X16. Removal lasts only as long as the pool is not empty: when the one
    address of a pool is removed after two failures in a row, the next lazy
    seeding reads the proxy file and installs what it gives, so an address
    the file still lists is back in the address list, with no failure on
    record. *)
Theorem removed_proxy_returns_with_reseeding
    (env : Env) (p : string) (w : World) :
  p <> "" ->
  proxy_list w = [p] ->
  count_of (proxy_failure_counts w) p = 0 ->
  In p (_get_proxies (read_file env (tick w) PROXY_FILE)) ->
  let w2 := _handle_proxy_failure (Some p) (_handle_proxy_failure (Some p) w) in
  let w3 := _ensure_global_proxies env w2 in
  proxy_list w2 = []
  /\ proxy_list w3 = _get_proxies (read_file env (tick w) PROXY_FILE)
  /\ In p (proxy_list w3)
  /\ count_of (proxy_failure_counts w3) p = 0.
Proof.
  intros Hp Hl Hc Hfile. apply truthy_nonempty in Hp. cbn zeta.
  set (w2 := _handle_proxy_failure (Some p) (_handle_proxy_failure (Some p) w)).
  assert (H2 : proxy_list w2 = [] /\ tick w2 = tick w
               /\ proxy_failure_counts w2 !! p = None).
  { subst w2. rewrite (handle_failure_eq p w Hp). cbn zeta. rewrite Hc.
    change (0 + 1 >=? PROXY_REMOVE_AFTER) with false. cbn iota.
    rewrite (handle_failure_eq p _ Hp). cbn zeta.
    cbn [proxy_failure_counts proxy_list tick trace].
    rewrite count_of_insert_eq.
    change (0 + 1 + 1 >=? PROXY_REMOVE_AFTER) with true. cbn iota.
    cbn [proxy_failure_counts proxy_list tick].
    rewrite Hl. cbn [remove_first]. rewrite String.eqb_refl.
    split; [reflexivity|]. split; [reflexivity|apply lookup_delete_eq]. }
  destruct H2 as (Hl2 & Ht2 & Hc2).
  split; [exact Hl2|].
  assert (Hl3 : proxy_list (_ensure_global_proxies env w2)
                = _get_proxies (read_file env (tick w) PROXY_FILE)).
  { unfold _ensure_global_proxies. rewrite Hl2, Ht2. cbn [nonempty].
    cbn [proxy_list advance log]. rewrite Hl2. cbn [nonempty negb andb].
    destruct (_get_proxies (read_file env (tick w) PROXY_FILE)) as [|x l];
      [destruct Hfile|reflexivity]. }
  split; [exact Hl3|]. split; [now rewrite Hl3|].
  rewrite ensure_counts. unfold count_of. now rewrite Hc2.
Qed.

Lemma removed_proxy_returns_with_reseeding_witness :
  "1.2.3.4:8080" <> ""
  /\ In "1.2.3.4:8080"
       (_get_proxies (read_file seeded_env (tick fresh_single) PROXY_FILE))
  /\ proxy_list
       (_ensure_global_proxies seeded_env
          (_handle_proxy_failure (Some "1.2.3.4:8080")
             (_handle_proxy_failure (Some "1.2.3.4:8080") fresh_single)))
     = ["1.2.3.4:8080"].
Proof.
  assert (Hp : "1.2.3.4:8080" <> "") by discriminate.
  assert (Hf : In "1.2.3.4:8080"
                 (_get_proxies (read_file seeded_env (tick fresh_single)
                                  PROXY_FILE))) by (now left).
  destruct (removed_proxy_returns_with_reseeding seeded_env "1.2.3.4:8080"
              fresh_single Hp eq_refl eq_refl Hf) as (_ & Hl & _).
  split; [exact Hp|]. split; [exact Hf|]. rewrite Hl. reflexivity.
Defined.
